(** * op-test planner: parameter discovery and exhaustion

    A shallow embedding of [op-test/planner.go].  A test scope
    ([testImpl]) carries a Go [context.Context] holding the parameter
    choices made so far; [Select] consults a [ParameterSelector] for a
    parameter that is not bound yet, and [planCtx] re-runs the test body
    once per remaining option of the parameter recorded by the scope.

    Go features and how they appear here:
    - [context.Context] is the chain of [WithValue] links, newest first;
      [Value] returns the untyped nil when no link carries the key.
    - [T.Fatalf] and [T.Skipf] leave the goroutine of the running
      sub-test ([runtime.Goexit]); a panic takes the whole test binary
      down.  Both are exits of the [result] type; [T_Run] gives the
      parent's view of them.
    - the test body [fn func(t Planner)] is a command tree over the
      methods of the scope it is handed.
    - the recursion of [planCtx] through [exhaust] is bounded by fuel.
    - a run leaves a trace: the sub-tests started and ended by [T.Run],
      the calls of the selector, and two marks, one where the body of a
      sub-test returns and one where [exhaust] is about to start a
      sub-plan. *)

From stdpp Require Import gmap strings list.

Open Scope string_scope.
Open Scope list_scope.

(** ** Collaborators declared outside planner.go *)

(** Modelled from the spec: the [ParameterSelector] interface is declared
    in another file of the package.  Its contract is
    [Select(name string, options []string) []string], a pure policy
    function from a parameter name and its candidate options to the
    options to exercise. *)
Record ParameterSelector := { selector_Select : string → list string → list string }.

(** [*testing.T], identified by the path of sub-test names from the root
    test ([T.Run] extends it by one name). *)
Definition testing_T := list string.

(** [slog.Level]; [slog.LevelError] is 8. *)
Definition slog_Level := Z.
Definition slog_LevelError : slog_Level := 8%Z.

(** ** Contexts *)

(** The two key types used with the context: [parameterManagerCtxKey{}]
    (declared outside planner.go, used at lines 24 and 191) and
    [parameterCtxKey(name)]. *)
Inductive ctxKey :=
| parameterManagerCtxKey
| parameterCtxKey (name : string).

#[global] Instance ctxKey_eq_dec : EqDecision ctxKey := ltac:(solve_decision).

(** A value of Go type [any] as the planner stores it in a context.  A
    nil interface converted to [any] is the nil [any]. *)
Inductive any :=
| nil_any
| string_any (s : string)
| selector_any (s : ParameterSelector).

Definition is_nil (v : any) : bool :=
  match v with nil_any => true | _ => false end.

Definition Context := list (ctxKey * any).

Definition Background : Context := [].

Definition WithValue (ctx : Context) (key : ctxKey) (val : any) : Context :=
  (key, val) :: ctx.

(** [context.WithCancel] derives a context with the same values. *)
Definition WithCancel (ctx : Context) : Context := ctx.

Fixpoint Value (ctx : Context) (key : ctxKey) : any :=
  match ctx with
  | [] => nil_any
  | (k, v) :: parent => if decide (k = key) then v else Value parent key
  end.

(** ** Test scopes *)

Record parameterSelection := {
  ps_name : string;
  ps_options : list string
}.

Record testImpl := {
  imp_T : testing_T;
  imp_ctx : Context;
  imp_logLvl : slog_Level;
  imp_parameterSelection : option parameterSelection
}.

(** ** Exits and the trace of a run *)

(** The [Fatalf] call sites of planner.go, with the arguments of their
    format strings. *)
Inductive fatal_msg :=
| ExhaustNotAfterDefault (name : string)                          (* line 145 *)
| EmptySetOfOptions (name : string)                               (* line 164 *)
| OptionAlreadySelected (name current : string)                   (* line 168 *)
| AlreadyAssumed (name : string) (options : list string) (current : string) (* line 184 *)
| NotInSelectableOptions (opt name : string).                     (* line 205 *)

(** The [Skipf] call site (line 195). *)
Inductive skip_msg :=
| NoneSelected (name : string).

(** Run-time panics: a failed type assertion, an index out of range. *)
Inductive panic_msg :=
| NotAString
| NotAParameterSelector
| IndexOutOfRange.

Inductive exit :=
| Fatalf (m : fatal_msg)
| Skipf (m : skip_msg)
| Panic (m : panic_msg)
| OutOfFuel.

Inductive result (A : Type) :=
| Ok (a : A)
| Exit (e : exit).
Arguments Ok {A} a.
Arguments Exit {A} e.

(** How a sub-test left its own function. *)
Inductive outcome :=
| Completed
| FailedNow (m : fatal_msg)
| SkippedNow (m : skip_msg).

Inductive event :=
| EvRunStart (t : testing_T)
| EvRunEnd (t : testing_T) (o : outcome)
| EvBodyReturned (t : testing_T) (ctx : Context)
| EvExhaust (t : testing_T) (name opt : string)
| EvSelector (name : string) (options : list string).

Definition trace := list event.

(** ** The monad of scope methods: the scope is mutated in place, an exit
    leaves it as it was at that point. *)
Definition M (A : Type) : Type := testImpl → result A * testImpl * trace.

#[global] Instance M_ret : MRet M := λ A a imp, (Ok a, imp, []).

#[global] Instance M_bind : MBind M := λ A B f m imp,
  match m imp with
  | (Ok a, imp', tr) =>
      match f a imp' with
      | (r, imp'', tr') => (r, imp'', tr ++ tr')
      end
  | (Exit e, imp', tr) => (Exit e, imp', tr)
  end.

Definition leave {A} (e : exit) : M A := λ imp, (Exit e, imp, []).
Definition T_Fatalf {A} (m : fatal_msg) : M A := leave (Fatalf m).
Definition T_Skipf {A} (m : skip_msg) : M A := leave (Skipf m).
Definition panic {A} (m : panic_msg) : M A := leave (Panic m).
Definition emit (e : event) : M unit := λ imp, (Ok tt, imp, [e]).
Definition get : M testImpl := λ imp, (Ok imp, imp, []).
Definition put (imp : testImpl) : M unit := λ _, (Ok tt, imp, []).
Definition when (b : bool) (m : M unit) : M unit := if b then m else mret tt.

(** A call that runs sub-tests: they see the scope but do not change it. *)
Definition sub (f : testImpl → result unit * trace) : M unit := λ imp,
  match f imp with (r, tr) => (r, imp, tr) end.

(** Type assertions [v.(string)] and [v.(ParameterSelector)]. *)
Definition as_string (v : any) : M string :=
  match v with
  | string_any s => mret s
  | _ => panic NotAString
  end.

Definition as_ParameterSelector (v : any) : M ParameterSelector :=
  match v with
  | selector_any s => mret s
  | _ => panic NotAParameterSelector
  end.

(** [s[0]]. *)
Definition index0 (s : list string) : M string :=
  match s with
  | [] => panic IndexOutOfRange
  | first :: _ => mret first
  end.

(** [slices.Contains]. *)
Definition slices_Contains (s : list string) (v : string) : bool :=
  bool_decide (v ∈ s).

(** [T.Run(name, f)]: the sub-test [t/name] runs [f] to its end; the
    caller goes on whether it completed, failed or was skipped, and goes
    down with it when it panics. *)
Definition T_Run (t : testing_T) (name : string)
    (f : testing_T → result unit * trace) : result unit * trace :=
  let t' := t ++ [name] in
  match f t' with
  | (Ok _, tr) => (Ok tt, EvRunStart t' :: tr ++ [EvRunEnd t' Completed])
  | (Exit (Fatalf m), tr) => (Ok tt, EvRunStart t' :: tr ++ [EvRunEnd t' (FailedNow m)])
  | (Exit (Skipf m), tr) => (Ok tt, EvRunStart t' :: tr ++ [EvRunEnd t' (SkippedNow m)])
  | (Exit e, tr) => (Exit e, EvRunStart t' :: tr)
  end.

(** ** Test bodies *)

(** A body [fn func(t Planner)]: the calls it makes on its scope, each
    with the continuation that receives the call's results. *)
Inductive body :=
| Return
| CallSelect (name : string) (options : list string) (k : string → body)
| CallParameter (name : string) (k : string → bool → body)
| CallPlan (name : string) (fn : body) (k : body)
| CallRun (name : string) (fn : body) (k : body).

(** ** Methods of [*testImpl] *)

Module Impl.

(** Line 65.  The lock only orders accesses; runs here are sequential. *)
Definition Ctx : M Context := imp ← get; mret (imp_ctx imp).

(** Line 81.  ([Parameter] is a reserved word here.) *)
Definition Parameter_ (name : string) : M (string * bool) :=
  v ← (ctx ← Ctx; mret (Value ctx (parameterCtxKey name)));
  if is_nil v then mret ("", false)
  else s ← as_string v; mret (s, true).

(** Line 162. *)
Definition selected (name : string) (options : list string) : M unit :=
  when (bool_decide (length options = 0)) (T_Fatalf (EmptySetOfOptions name));;
  imp ← get;
  let current := Value (imp_ctx imp) (parameterCtxKey name) in
  when (negb (is_nil current))
    (s ← as_string current; T_Fatalf (OptionAlreadySelected name s));;
  put {| imp_T := imp_T imp;
         imp_ctx := imp_ctx imp;
         imp_logLvl := imp_logLvl imp;
         imp_parameterSelection := Some {| ps_name := name; ps_options := options |} |};;
  imp ← get;
  first ← index0 options;
  put {| imp_T := imp_T imp;
         imp_ctx := WithValue (imp_ctx imp) (parameterCtxKey name) (string_any first);
         imp_logLvl := imp_logLvl imp;
         imp_parameterSelection := imp_parameterSelection imp |}.

(** Lines 203-207: the first selected option outside [seen] is fatal. *)
Fixpoint verify_selected (seen : gset string) (name : string)
    (selectedOptions : list string) : M unit :=
  match selectedOptions with
  | [] => mret tt
  | opt :: rest =>
      when (negb (bool_decide (opt ∈ seen)))
        (T_Fatalf (NotInSelectableOptions opt name));;
      verify_selected seen name rest
  end.

(** Line 176. *)
Definition Select (name : string) (options : list string) : M string :=
  imp ← get;
  let current := Value (imp_ctx imp) (parameterCtxKey name) in
  let hasWildcard := slices_Contains options "*" in
  if negb (is_nil current) then
    inconsistent ← (if negb hasWildcard
                    then s ← as_string current; mret (negb (slices_Contains options s))
                    else mret false);
    when inconsistent
      (s ← as_string current; T_Fatalf (AlreadyAssumed name options s));;
    as_string current
  else
    selector ← as_ParameterSelector (Value (imp_ctx imp) parameterManagerCtxKey);
    emit (EvSelector name options);;
    let selectedOptions := selector_Select selector name options in
    when (bool_decide (length selectedOptions = 0)) (T_Skipf (NoneSelected name));;
    when (negb hasWildcard)
      (let seen : gset string := list_to_set options in
       verify_selected seen name selectedOptions);;
    selected name selectedOptions;;
    index0 selectedOptions.

(** The part of a method that does not depend on how deep the run may
    still go: the calls that start sub-tests are the section's variables,
    and the recursion on fuel below closes them. *)
Section Open.
Variable planCtx_rec : testImpl → Context → string → body → result unit * trace.
Variable Run_rec : testImpl → string → body → result unit * trace.

(** Line 110. *)
Definition Plan_open (name : string) (fn : body) : M unit :=
  ctx ← Ctx;
  sub (λ imp, planCtx_rec imp ctx name fn).

(** [fn(subScope)]: the body makes its calls on the scope, in order. *)
Fixpoint call_open (fn : body) : M unit :=
  match fn with
  | Return => mret tt
  | CallSelect name options k => v ← Select name options; call_open (k v)
  | CallParameter name k => r ← Parameter_ name; call_open (k r.1 r.2)
  | CallPlan name fn' k => Plan_open name fn';; call_open k
  | CallRun name fn' k => sub (λ imp, Run_rec imp name fn');; call_open k
  end.

(** Lines 139-155, the loop over the recorded options. *)
Fixpoint exhaust_loop (ctx : Context) (name : string) (options : list string)
    (fn : body) : M unit :=
  match options with
  | [] => mret tt
  | opt :: rest =>
      let key := parameterCtxKey name in
      let current := Value ctx key in
      when (is_nil current) (T_Fatalf (ExhaustNotAfterDefault name));;
      s ← as_string current;
      (if bool_decide (s = opt) then mret tt
       else
         let subCtx := WithValue ctx key (string_any opt) in
         imp ← get;
         emit (EvExhaust (imp_T imp) name opt);;
         sub (λ imp, planCtx_rec imp subCtx ("exhaust_" +:+ name +:+ "_" +:+ opt) fn));;
      exhaust_loop ctx name rest fn
  end.

(** Line 133. *)
Definition exhaust_open (fn : body) : M unit :=
  imp ← get;
  match imp_parameterSelection imp with
  | None => mret tt
  | Some ps =>
      ctx ← Ctx;
      exhaust_loop ctx (ps_name ps) (ps_options ps) fn
  end.

(** The function literal of line 116, run on the sub-test's [t]. *)
Definition planCtx_closure (imp : testImpl) (ctx : Context) (fn : body)
    (t : testing_T) : result unit * trace :=
  let ctx := WithCancel ctx in
  let subScope := {| imp_T := t; imp_ctx := ctx; imp_logLvl := imp_logLvl imp;
                     imp_parameterSelection := None |} in
  let m : M unit :=
    call_open fn;;
    s ← get; emit (EvBodyReturned (imp_T s) (imp_ctx s));;
    exhaust_open fn in
  ((m subScope).1.1, (m subScope).2).

(** The function literal of line 96. *)
Definition Run_closure (imp : testImpl) (ctx : Context) (fn : body)
    (t : testing_T) : result unit * trace :=
  let ctx := WithCancel ctx in
  let subScope := {| imp_T := t; imp_ctx := ctx; imp_logLvl := imp_logLvl imp;
                     imp_parameterSelection := None |} in
  let m : M unit :=
    call_open fn;;
    s ← get; emit (EvBodyReturned (imp_T s) (imp_ctx s)) in
  ((m subScope).1.1, (m subScope).2).
End Open.

(** Lines 115 and 90.  Each sub-test started takes one unit of fuel. *)
Fixpoint planCtx (fuel : nat) (imp : testImpl) (ctx : Context) (name : string)
    (fn : body) {struct fuel} : result unit * trace :=
  match fuel with
  | 0 => (Exit OutOfFuel, [])
  | S fuel =>
      T_Run (imp_T imp) name (planCtx_closure (planCtx fuel) (Run fuel) imp ctx fn)
  end
with Run (fuel : nat) (imp : testImpl) (name : string) (fn : body)
    {struct fuel} : result unit * trace :=
  match fuel with
  | 0 => (Exit OutOfFuel, [])
  | S fuel =>
      let ctx := imp_ctx imp in
      T_Run (imp_T imp) name (Run_closure (planCtx fuel) (Run fuel) imp ctx fn)
  end.

Definition Plan (fuel : nat) : string → body → M unit := Plan_open (planCtx fuel).
Definition call (fuel : nat) : body → M unit := call_open (planCtx fuel) (Run fuel).
Definition exhaust (fuel : nat) : body → M unit := exhaust_open (planCtx fuel).

End Impl.

(** ** The entry point (line 19) *)

(** The context and the scope that [Plan] builds before it runs the body. *)
Definition Plan_ctx : Context :=
  let ctx := WithCancel Background in
  let selector : any := nil_any in   (* [var selector ParameterSelector] *)
  WithValue ctx parameterManagerCtxKey selector.

Definition Plan_imp (t : testing_T) : testImpl :=
  {| imp_T := t; imp_ctx := Plan_ctx; imp_logLvl := slog_LevelError;
     imp_parameterSelection := None |}.

Definition Plan (fuel : nat) (t : testing_T) (fn : body) : result unit * trace :=
  let imp := Plan_imp t in
  let m : M unit := Impl.Plan fuel "default" fn;; Impl.exhaust fuel fn in
  ((m imp).1.1, (m imp).2).

(** ** Sample selectors and bodies *)

(** The selector that runs every option. *)
Definition selectAll : ParameterSelector := {| selector_Select := λ _ options, options |}.

(** The body that calls [Select("p", "a", "b", "c")] and nothing else. *)
Definition selectOnce : body := CallSelect "p" ["a"; "b"; "c"] (λ _, Return).

(** The body that selects [p] and then [q] in the same scope. *)
Definition selectTwo : body :=
  CallSelect "p" ["a"; "b"] (λ _, CallSelect "q" ["x"; "y"] (λ _, Return)).

(** A selector that answers with an option nobody presented. *)
Definition selectForeign : ParameterSelector := {| selector_Select := λ _ _, ["z"] |}.

(** A selector that selects nothing. *)
Definition selectNone : ParameterSelector := {| selector_Select := λ _ _, [] |}.

(** A root scope whose context carries [selector]. *)
Definition scopeWith (selector : any) (t : testing_T) : testImpl :=
  {| imp_T := t; imp_ctx := WithValue Background parameterManagerCtxKey selector;
     imp_logLvl := slog_LevelError; imp_parameterSelection := None |}.

(** A context extended with string bindings of parameters, the last of
    the list first. *)
Definition with_parameters (ctx : Context) (bindings : list (string * string)) : Context :=
  foldl (λ ctx b, WithValue ctx (parameterCtxKey b.1) (string_any b.2)) ctx bindings.

(** The bodies that returned in a trace, each with its scope's bindings
    for [name] at that point. *)
Definition bodies_returned (name : string) (tr : trace) : list (testing_T * any) :=
  omap (λ e, match e with
             | EvBodyReturned t ctx => Some (t, Value ctx (parameterCtxKey name))
             | _ => None
             end) tr.

(** ** Vocabulary of the properties *)

(** The scope after [selected(name, first :: rest)]. *)
Definition after_selected (imp : testImpl) (name : string) (options : list string)
    (first : string) : testImpl :=
  {| imp_T := imp_T imp;
     imp_ctx := WithValue (imp_ctx imp) (parameterCtxKey name) (string_any first);
     imp_logLvl := imp_logLvl imp;
     imp_parameterSelection := Some {| ps_name := name; ps_options := options |} |}.

(** The first selected option that was not presented. *)
Definition first_foreign (options selectedOptions : list string) : option string :=
  find (λ opt, negb (bool_decide (opt ∈ options))) selectedOptions.

(** The scope that the function literals of [planCtx] and [Run] build
    for the sub-test [t]. *)
Definition subScope_of (imp : testImpl) (ctx : Context) (t : testing_T) : testImpl :=
  {| imp_T := t; imp_ctx := WithCancel ctx; imp_logLvl := imp_logLvl imp;
     imp_parameterSelection := None |}.

(** The sub-plans that exhaustion is to start, in the spec's words: one
    for every recorded option other than the bound default [current],
    named ["exhaust_" + name + "_" + o], under the context with [name]
    rebound to [o]. *)
Definition remaining_subplans (ctx : Context) (name current : string)
    (options : list string) : list (string * string * Context) :=
  map (λ o, (o, "exhaust_" +:+ name +:+ "_" +:+ o,
             WithValue ctx (parameterCtxKey name) (string_any o)))
      (filter (λ o, o ≠ current) options).

(** Running a list of sub-plans of the body [fn] one after the other. *)
Fixpoint run_subplans
    (plan : testImpl → Context → string → body → result unit * trace)
    (fn : body) (name : string) (subplans : list (string * string * Context))
    : M unit :=
  match subplans with
  | [] => mret tt
  | (o, subName, subCtx) :: rest =>
      (imp ← get;
       emit (EvExhaust (imp_T imp) name o);;
       sub (λ imp, plan imp subCtx subName fn));;
      run_subplans plan fn name rest
  end.

(** The sub-tests that are open at a point of a trace, innermost first,
    each with whether its body has returned. *)
Definition open_tests := list (testing_T * bool).

(** One event against the open sub-tests: a sub-test opens above the
    others with its body running; a body returns in the innermost open
    sub-test, once; exhaustion starts a sibling run only from the
    innermost open sub-test, after its body returned; a sub-test ends
    when it is the innermost. *)
Definition ordered_step (stack : open_tests) (e : event) : option open_tests :=
  match e with
  | EvRunStart t => Some ((t, false) :: stack)
  | EvSelector _ _ => Some stack
  | EvBodyReturned t _ =>
      match stack with
      | (t', false) :: below => if decide (t' = t) then Some ((t, true) :: below) else None
      | _ => None
      end
  | EvExhaust t _ _ =>
      match stack with
      | (t', true) :: _ => if decide (t' = t) then Some stack else None
      | _ => None
      end
  | EvRunEnd t _ =>
      match stack with
      | (t', _) :: below => if decide (t' = t) then Some below else None
      | [] => None
      end
  end.

Fixpoint ordered (stack : open_tests) (tr : trace) : option open_tests :=
  match tr with
  | [] => Some stack
  | e :: tr => stack' ← ordered_step stack e; ordered stack' tr
  end.

(** An exit that ends the sub-test but not the run. *)
Definition survives {A} (r : result A) : Prop :=
  match r with
  | Exit (Panic _) | Exit OutOfFuel => False
  | _ => True
  end.

(** A trace that is in order from [stack] and, unless the run went down,
    comes back to [stack]. *)
Definition accepted {A} (stack : open_tests) (r : result A) (tr : trace) : Prop :=
  ∃ stack', ordered stack tr = Some stack' ∧ (survives r → stack' = stack).

(** The scope's recorded selection names a parameter that its context
    binds to a string. *)
Definition recorded_bound (imp : testImpl) : Prop :=
  match imp_parameterSelection imp with
  | None => True
  | Some ps => ∃ v, Value (imp_ctx imp) (parameterCtxKey (ps_name ps)) = string_any v
  end.

(** The failure of line 145, as an exit and as the end of a sub-test. *)
Definition exhaust_fatal {A} (r : result A) : bool :=
  match r with
  | Exit (Fatalf (ExhaustNotAfterDefault _)) => true
  | _ => false
  end.

Definition is_exhaust_failure (e : event) : bool :=
  match e with
  | EvRunEnd _ (FailedNow (ExhaustNotAfterDefault _)) => true
  | _ => false
  end.

(** What a call of [Select] can do: leave the scope as it is, or select
    for a name that was unbound. *)
Inductive Select_returns (name : string) (options : list string) (imp : testImpl)
  : result string * testImpl * trace → Prop :=
| Select_leaves r tr :
    exhaust_fatal r = false →
    tr = [] ∨ tr = [EvSelector name options] →
    Select_returns name options imp (r, imp, tr)
| Select_selects first rest :
    Value (imp_ctx imp) (parameterCtxKey name) = nil_any →
    Select_returns name options imp
      (Ok first, after_selected imp name (first :: rest) first,
       [EvSelector name options]).

(** A trace of the function of a sub-test [t]: in order from the point
    where [t] has just been opened, and back to [t] as the innermost open
    sub-test unless the run went down. *)
Definition accepted_in (t : testing_T) (below : open_tests) (x : result unit * trace) : Prop :=
  ∃ stack', ordered ((t, false) :: below) x.2 = Some stack'
            ∧ (survives x.1 → ∃ b, stack' = (t, b) :: below).

(** Neither the exit nor the trace shows the failure of line 145. *)
Definition clean {A} (r : result A) (tr : trace) : Prop :=
  exhaust_fatal r = false ∧ Forall (λ e, is_exhaust_failure e = false) tr.

(** A call of the selector, and a trace without one. *)
Definition is_selector_call (e : event) : bool :=
  match e with
  | EvSelector _ _ => true
  | _ => false
  end.

Abbreviation quiet tr := (Forall (λ e, is_selector_call e = false) tr).

(** ** Vocabulary of the further properties *)

(** The recorded selection is never empty, and its first option is the
    value that the context binds to its name. *)
Definition recorded_default (imp : testImpl) : Prop :=
  match imp_parameterSelection imp with
  | None => True
  | Some ps => ∃ first rest,
      ps_options ps = first :: rest
      ∧ Value (imp_ctx imp) (parameterCtxKey (ps_name ps)) = string_any first
  end.

(** The ways out of [Select] that its own text has: a value, the two
    [Fatalf] and the [Skipf] of its body, a panic. *)
Definition Select_exit (r : result string) : bool :=
  match r with
  | Ok _ => true
  | Exit (Fatalf (AlreadyAssumed _ _ _)) => true
  | Exit (Fatalf (NotInSelectableOptions _ _)) => true
  | Exit (Skipf (NoneSelected _)) => true
  | Exit (Panic _) => true
  | _ => false
  end.

(** The sub-test that an event is about. *)
Definition event_T (e : event) : option testing_T :=
  match e with
  | EvRunStart t | EvRunEnd t _ | EvBodyReturned t _ | EvExhaust t _ _ => Some t
  | EvSelector _ _ => None
  end.

(** Every sub-test of the events of a trace is [t] or lies under it. *)
Definition under (t : testing_T) (tr : trace) : Prop :=
  Forall (λ e, ∀ t', event_T e = Some t' → t `prefix_of` t') tr.

(** Every sub-test of the events of a trace lies under [t], [t] itself
    left out. *)
Definition below (t : testing_T) (tr : trace) : Prop :=
  Forall (λ e, ∀ t', event_T e = Some t' → ∃ name, (t ++ [name]) `prefix_of` t') tr.

(** A body that makes no [Select] on its own scope (the bodies of the
    sub-tests it starts may). *)
Fixpoint no_Select (fn : body) : Prop :=
  match fn with
  | Return => True
  | CallSelect _ _ _ => False
  | CallParameter _ k => ∀ v ok, no_Select (k v ok)
  | CallPlan _ _ k => no_Select k
  | CallRun _ _ k => no_Select k
  end.

(** The selector of a context, if it has one, never selects more than
    one option. *)
Definition selects_at_most_one (ctx : Context) : Prop :=
  ∀ sel, Value ctx parameterManagerCtxKey = selector_any sel →
    ∀ name options, (length (selector_Select sel name options) ≤ 1)%nat.

(** A scope under such a selector: what it recorded has one option, the
    one its context binds to the name. *)
Definition settled (imp : testImpl) : Prop :=
  selects_at_most_one (imp_ctx imp)
  ∧ match imp_parameterSelection imp with
    | None => True
    | Some ps =>
        ∃ first, ps_options ps = [first]
                 ∧ Value (imp_ctx imp) (parameterCtxKey (ps_name ps)) = string_any first
    end.

Definition is_exhaust (e : event) : bool :=
  match e with
  | EvExhaust _ _ _ => true
  | _ => false
  end.

(** An event of a run in which nothing is selected: no call of a
    selector, no exhaustion, and bodies that return under [ctx]. *)
Definition inert (ctx : Context) (e : event) : Prop :=
  match e with
  | EvSelector _ _ | EvExhaust _ _ _ => False
  | EvBodyReturned _ ctx' => ctx' = ctx
  | _ => True
  end.

(** * Properties *)

(** ** Reasoning about the monad *)

Ltac unfold_M :=
  unfold mbind, M_bind, mret, M_ret, when, T_Fatalf, T_Skipf, panic, leave,
    emit, get, put, sub, as_string, as_ParameterSelector, index0 in *.

Lemma bind_Ok {A B} (m : M A) (f : A → M B) imp a imp' tr :
  m imp = (Ok a, imp', tr) →
  (m ≫= f) imp = ((f a imp').1.1, (f a imp').1.2, tr ++ (f a imp').2).
Proof.
  intros H. unfold mbind, M_bind. rewrite H.
  by destruct (f a imp') as [[? ?] ?].
Qed.

Lemma bind_Exit {A B} (m : M A) (f : A → M B) imp e imp' tr :
  m imp = (Exit e, imp', tr) → (m ≫= f) imp = (Exit e, imp', tr).
Proof. intros H. unfold mbind, M_bind. by rewrite H. Qed.

Lemma mret_bind {A B} (a : A) (f : A → M B) imp :
  (mret a ≫= f) imp = f a imp.
Proof.
  unfold mbind, M_bind, mret, M_ret. by destruct (f a imp) as [[? ?] ?].
Qed.

Lemma bind_assoc {A B C} (m : M A) (f : A → M B) (g : B → M C) imp :
  ((m ≫= f) ≫= g) imp = (m ≫= λ a, f a ≫= g) imp.
Proof.
  unfold mbind, M_bind. destruct (m imp) as [[[a|e] imp1] tr1]; [|done].
  destruct (f a imp1) as [[[b|e] imp2] tr2]; [|done].
  destruct (g b imp2) as [[? ?] ?]. by rewrite app_assoc.
Qed.

Lemma bind_ext {A B} (m : M A) (f g : A → M B) imp :
  (∀ a imp', f a imp' = g a imp') → (m ≫= f) imp = (m ≫= g) imp.
Proof.
  intros H. unfold mbind, M_bind. destruct (m imp) as [[[a|e] imp1] tr1]; [|done].
  by rewrite H.
Qed.

Lemma Plan_open_sub plan name fn imp :
  Impl.Plan_open plan name fn imp = sub (λ imp0, plan imp0 (imp_ctx imp) name fn) imp.
Proof.
  unfold Impl.Plan_open, Impl.Ctx. unfold mbind, M_bind, get, mret, M_ret, sub.
  by destruct (plan imp (imp_ctx imp) name fn) as [? ?].
Qed.

Lemma spawn_sub (plan : testImpl → Context → string → body → result unit * trace)
    name opt subCtx subName fn imp :
  (imp0 ← get;
   emit (EvExhaust (imp_T imp0) name opt);;
   sub (λ imp1, plan imp1 subCtx subName fn)) imp =
  ((plan imp subCtx subName fn).1, imp,
   EvExhaust (imp_T imp) name opt :: (plan imp subCtx subName fn).2).
Proof.
  unfold mbind, M_bind, get, emit, sub.
  by destruct (plan imp subCtx subName fn) as [? ?].
Qed.

(** ** [Select] on a bound and on an unbound name *)

Arguments Impl.verify_selected : simpl never.
Arguments Impl.selected : simpl never.
Arguments Impl.Select : simpl never.
Arguments Impl.Parameter_ : simpl never.

Lemma Contains_spec (s : list string) (v : string) :
  slices_Contains s v = true ↔ v ∈ s.
Proof. unfold slices_Contains. apply bool_decide_eq_true. Qed.

Lemma Contains_false (s : list string) (v : string) :
  slices_Contains s v = false ↔ v ∉ s.
Proof. unfold slices_Contains. apply bool_decide_eq_false. Qed.

Lemma Select_bound imp name options v :
  Value (imp_ctx imp) (parameterCtxKey name) = string_any v →
  Impl.Select name options imp =
    if negb (slices_Contains options "*") && negb (slices_Contains options v)
    then (Exit (Fatalf (AlreadyAssumed name options v)), imp, [])
    else (Ok v, imp, []).
Proof.
  intros Hv. unfold Impl.Select. unfold_M. rewrite Hv. simpl.
  destruct (slices_Contains options "*"); simpl; [done|].
  by destruct (slices_Contains options v).
Qed.

Lemma verify_selected_find (seen : gset string) name selectedOptions imp :
  Impl.verify_selected seen name selectedOptions imp =
    match find (λ opt, negb (bool_decide (opt ∈ seen))) selectedOptions with
    | Some opt => (Exit (Fatalf (NotInSelectableOptions opt name)), imp, [])
    | None => (Ok tt, imp, [])
    end.
Proof.
  induction selectedOptions as [|opt rest IH]; [reflexivity|].
  change (Impl.verify_selected seen name (opt :: rest)) with
    (when (negb (bool_decide (opt ∈ seen)))
       (T_Fatalf (NotInSelectableOptions opt name));;
     Impl.verify_selected seen name rest).
  cbn [find]. unfold_M.
  destruct (bool_decide (opt ∈ seen)); simpl; [|done].
  rewrite IH. by destruct (find _ rest).
Qed.

Lemma selected_unbound imp name first rest :
  Value (imp_ctx imp) (parameterCtxKey name) = nil_any →
  Impl.selected name (first :: rest) imp =
    (Ok tt, after_selected imp name (first :: rest) first, []).
Proof. intros Hv. unfold Impl.selected. unfold_M. simpl. by rewrite Hv. Qed.

Arguments first_foreign : simpl never.

Lemma Select_unbound imp name options sel :
  Value (imp_ctx imp) (parameterCtxKey name) = nil_any →
  Value (imp_ctx imp) parameterManagerCtxKey = selector_any sel →
  Impl.Select name options imp =
    let selectedOptions := selector_Select sel name options in
    match selectedOptions with
    | [] => (Exit (Skipf (NoneSelected name)), imp, [EvSelector name options])
    | first :: _ =>
        match (if slices_Contains options "*" then None
               else first_foreign options selectedOptions) with
        | Some opt => (Exit (Fatalf (NotInSelectableOptions opt name)), imp,
                       [EvSelector name options])
        | None => (Ok first, after_selected imp name selectedOptions first,
                   [EvSelector name options])
        end
    end.
Proof.
  intros Hv Hs.
  assert (Hfind : ∀ l, find (λ opt, negb (bool_decide (opt ∈ (list_to_set options : gset string)))) l
                    = first_foreign options l).
  { unfold first_foreign. induction l as [|o l IH]; [done|]. simpl.
    rewrite IH, (bool_decide_ext (o ∈ (list_to_set options : gset string)) (o ∈ options)); [done|].
    apply elem_of_list_to_set. }
  unfold Impl.Select. unfold_M. rewrite Hv, Hs. simpl.
  destruct (selector_Select sel name options) as [|first rest] eqn:Hsel; [done|].
  simpl. destruct (slices_Contains options "*"); simpl.
  - rewrite (selected_unbound _ _ _ _ Hv). done.
  - rewrite verify_selected_find, Hfind.
    destruct (first_foreign options (first :: rest)); [done|].
    rewrite (selected_unbound _ _ _ _ Hv). done.
Qed.

Lemma Select_not_a_string imp name options s :
  Value (imp_ctx imp) (parameterCtxKey name) = selector_any s →
  Impl.Select name options imp = (Exit (Panic NotAString), imp, []).
Proof.
  intros Hv. unfold Impl.Select. unfold_M. rewrite Hv. cbn.
  by destruct (slices_Contains options "*").
Qed.

Lemma Select_nil_selector imp name options :
  Value (imp_ctx imp) (parameterCtxKey name) = nil_any →
  Value (imp_ctx imp) parameterManagerCtxKey = nil_any →
  Impl.Select name options imp = (Exit (Panic NotAParameterSelector), imp, []).
Proof. intros Hv Hs. unfold Impl.Select. unfold_M. by rewrite Hv, Hs. Qed.

Lemma Parameter_bound imp name v :
  Value (imp_ctx imp) (parameterCtxKey name) = string_any v →
  Impl.Parameter_ name imp = (Ok (v, true), imp, []).
Proof. intros Hv. unfold Impl.Parameter_, Impl.Ctx. unfold_M. by rewrite Hv. Qed.

Lemma first_foreign_None options selectedOptions :
  first_foreign options selectedOptions = None ↔
  Forall (λ opt, opt ∈ options) selectedOptions.
Proof.
  unfold first_foreign. induction selectedOptions as [|o l IH]; simpl.
  - split; [constructor|done].
  - case_bool_decide as Ho; simpl.
    + rewrite IH. split; [by constructor|by inversion 1].
    + split; [done|]. inversion 1; subst. contradiction.
Qed.

Lemma first_foreign_Some options selectedOptions opt :
  first_foreign options selectedOptions = Some opt →
  opt ∈ selectedOptions ∧ opt ∉ options.
Proof.
  unfold first_foreign. induction selectedOptions as [|o l IH]; simpl; [done|].
  case_bool_decide as Ho; simpl.
  - intros H. destruct (IH H) as [? ?]. split; [by right|done].
  - intros [= <-]. split; [by left|done].
Qed.

Lemma Select_unbound_valid imp name options sel first rest :
  Value (imp_ctx imp) (parameterCtxKey name) = nil_any →
  Value (imp_ctx imp) parameterManagerCtxKey = selector_any sel →
  selector_Select sel name options = first :: rest →
  "*" ∈ options ∨ Forall (λ opt, opt ∈ options) (first :: rest) →
  Impl.Select name options imp =
    (Ok first, after_selected imp name (first :: rest) first,
     [EvSelector name options]).
Proof.
  intros Hv Hs Hsel Hvalid.
  rewrite (Select_unbound imp name options sel Hv Hs). cbv zeta. rewrite Hsel.
  destruct (slices_Contains options "*") eqn:Hw; [done|].
  apply Contains_false in Hw. destruct Hvalid as [?|Hall]; [done|].
  apply first_foreign_None in Hall. by rewrite Hall.
Qed.

(** ** The two ways through the closure of [planCtx] *)

Lemma planCtx_closure_Exit plan run imp ctx fn t e imp' tr :
  Impl.call_open plan run fn (subScope_of imp ctx t) = (Exit e, imp', tr) →
  Impl.planCtx_closure plan run imp ctx fn t = (Exit e, tr).
Proof.
  intros H. unfold Impl.planCtx_closure. fold (subScope_of imp ctx t).
  cbv zeta. by rewrite (bind_Exit _ _ _ _ _ _ H).
Qed.

Lemma planCtx_closure_Ok plan run imp ctx fn t imp' tr :
  Impl.call_open plan run fn (subScope_of imp ctx t) = (Ok tt, imp', tr) →
  Impl.planCtx_closure plan run imp ctx fn t =
    ((Impl.exhaust_open plan fn imp').1.1,
     tr ++ EvBodyReturned (imp_T imp') (imp_ctx imp')
        :: (Impl.exhaust_open plan fn imp').2).
Proof.
  intros H. unfold Impl.planCtx_closure. fold (subScope_of imp ctx t).
  cbv zeta. rewrite (bind_Ok _ _ _ _ _ _ H). simpl.
  unfold mbind, M_bind, get, emit.
  by destruct (Impl.exhaust_open plan fn imp') as [[? ?] ?].
Qed.

(** ** Claims about [Select] *)

(** C4: when [name] is already bound to [v], [Select(name, options...)]
    fails fatally if [v] is not among [options] and [options] has no
    wildcard; otherwise it returns [v], leaves the scope as it was and
    does not consult the selector (the trace is empty, whatever the
    selector slot holds).  In particular [Select(name, "*")] returns [v]. *)
Theorem Select_already_bound imp name options v :
  Value (imp_ctx imp) (parameterCtxKey name) = string_any v →
  (v ∉ options → "*" ∉ options →
     Impl.Select name options imp =
       (Exit (Fatalf (AlreadyAssumed name options v)), imp, []))
  ∧ (v ∈ options ∨ "*" ∈ options →
     Impl.Select name options imp = (Ok v, imp, []))
  ∧ Impl.Select name ["*"] imp = (Ok v, imp, []).
Proof.
  intros Hv. split; [|split].
  - intros Hin Hw. rewrite (Select_bound _ _ _ _ Hv).
    apply Contains_false in Hin, Hw. by rewrite Hin, Hw.
  - intros H. rewrite (Select_bound _ _ _ _ Hv).
    destruct H as [H|H]; apply Contains_spec in H; rewrite H;
      [by rewrite andb_false_r|done].
  - by rewrite (Select_bound _ _ _ _ Hv).
Qed.

Lemma Select_already_bound_witness :
  let imp := after_selected (Plan_imp ["TestX"]) "p" ["a"; "b"] "a" in
  Value (imp_ctx imp) (parameterCtxKey "p") = string_any "a"
  ∧ Impl.Select "p" ["*"] imp = (Ok "a", imp, []).
Proof.
  split; [reflexivity|].
  apply (Select_already_bound _ "p" ["x"; "y"] "a"). reflexivity.
Defined.

(** C8: when [name] is unbound and the selector selects nothing, the
    call leaves through [Skipf] (not [Fatalf]) with the scope unchanged:
    no binding and no selection record is made; the sub-test running
    such a body ends skipped and its parent goes on. *)
Theorem Select_none_selected_skips imp name options sel :
  Value (imp_ctx imp) (parameterCtxKey name) = nil_any →
  Value (imp_ctx imp) parameterManagerCtxKey = selector_any sel →
  selector_Select sel name options = [] →
  Impl.Select name options imp =
    (Exit (Skipf (NoneSelected name)), imp, [EvSelector name options])
  ∧ ∀ fuel parent sub k,
      Impl.planCtx (S fuel) parent (imp_ctx imp) sub (CallSelect name options k) =
        (Ok tt, [EvRunStart (imp_T parent ++ [sub]); EvSelector name options;
                 EvRunEnd (imp_T parent ++ [sub]) (SkippedNow (NoneSelected name))]).
Proof.
  intros Hv Hs Hsel.
  assert (HS : ∀ imp', imp_ctx imp' = imp_ctx imp →
     Impl.Select name options imp' =
       (Exit (Skipf (NoneSelected name)), imp', [EvSelector name options])).
  { intros imp' Hctx. rewrite (Select_unbound imp' name options sel) by by rewrite Hctx.
    simpl. by rewrite Hsel. }
  split; [by apply HS|].
  intros fuel parent sub k. cbn [Impl.planCtx]. unfold T_Run.
  erewrite planCtx_closure_Exit; [|cbn [Impl.call_open]; by apply bind_Exit, HS].
  done.
Qed.

Lemma Select_none_selected_skips_witness :
  let imp := scopeWith (selector_any selectNone) ["TestX"] in
  Impl.Select "p" ["a"; "b"] imp =
    (Exit (Skipf (NoneSelected "p")), imp, [EvSelector "p" ["a"; "b"]]).
Proof.
  apply (Select_none_selected_skips _ "p" ["a"; "b"] selectNone); reflexivity.
Defined.

(** C9: when [name] is unbound and [options] has no wildcard, a selected
    option outside [options] is fatal, and a call that returns has only
    selected options that were presented; with the wildcard among
    [options] no such verification is made, and the call returns the first
    selected option wherever it comes from. *)
Theorem Select_verifies_subset imp name options sel :
  Value (imp_ctx imp) (parameterCtxKey name) = nil_any →
  Value (imp_ctx imp) parameterManagerCtxKey = selector_any sel →
  let selectedOptions := selector_Select sel name options in
  ("*" ∉ options →
     (∀ opt, opt ∈ selectedOptions → opt ∉ options →
        ∃ opt', (opt' ∈ selectedOptions) ∧ (opt' ∉ options) ∧
          Impl.Select name options imp =
            (Exit (Fatalf (NotInSelectableOptions opt' name)), imp,
             [EvSelector name options]))
     ∧ (∀ v imp' tr, Impl.Select name options imp = (Ok v, imp', tr) →
          Forall (λ opt, opt ∈ options) selectedOptions))
  ∧ ("*" ∈ options →
     ∀ first rest, selectedOptions = first :: rest →
       Impl.Select name options imp =
         (Ok first, after_selected imp name selectedOptions first,
          [EvSelector name options])).
Proof.
  intros Hv Hs selectedOptions.
  pose proof (Select_unbound imp name options sel Hv Hs) as HS.
  cbv zeta in HS. fold selectedOptions in HS. split.
  - intros Hw. apply Contains_false in Hw. rewrite Hw in HS. split.
    + intros opt Hin Hout.
      destruct selectedOptions as [|first rest] eqn:Hsel; [by inversion Hin|].
      destruct (first_foreign options (first :: rest)) as [opt'|] eqn:Hff.
      * apply first_foreign_Some in Hff as [? ?]. by exists opt'.
      * apply first_foreign_None in Hff.
        rewrite Forall_forall in Hff. by destruct (Hout (Hff opt Hin)).
    + intros v imp' tr Hok. rewrite HS in Hok.
      destruct selectedOptions as [|first rest] eqn:Hsel; [done|].
      destruct (first_foreign options (first :: rest)) eqn:Hff; [done|].
      by apply first_foreign_None.
  - intros Hw first rest Hsel. apply Contains_spec in Hw.
    rewrite Hw, Hsel in HS. by rewrite Hsel.
Qed.

Lemma Select_verifies_subset_witness :
  let imp := scopeWith (selector_any selectForeign) ["TestX"] in
  Impl.Select "p" ["a"; "*"] imp =
    (Ok "z", after_selected imp "p" ["z"] "z", [EvSelector "p" ["a"; "*"]]).
Proof.
  refine (proj2 (Select_verifies_subset _ "p" ["a"; "*"] selectForeign _ _) _ "z" [] _).
  - reflexivity.
  - reflexivity.
  - set_solver.
  - reflexivity.
Defined.

(** C10 as stated fails: the selector's answer is not empty, and yet the
    call is fatal and binds nothing, because the answer has an option
    that was not presented and there is no wildcard. *)
Lemma Select_binds_first_counterexample :
  let imp := scopeWith (selector_any selectForeign) ["TestX"] in
  Value (imp_ctx imp) (parameterCtxKey "p") = nil_any
  ∧ selector_Select selectForeign "p" ["a"; "b"] = ["z"]
  ∧ Impl.Select "p" ["a"; "b"] imp =
      (Exit (Fatalf (NotInSelectableOptions "z" "p")), imp,
       [EvSelector "p" ["a"; "b"]])
  ∧ Impl.Parameter_ "p" imp = (Ok ("", false), imp, []).
Proof. repeat split. Qed.

(** C10, amended: when [name] is unbound, the selector's answer
    [first :: rest] is not empty and passes the verification of [Select]
    (the wildcard is among [options], or every selected option is), the
    call returns [first], the scope's context is extended with
    [name -> first], the scope records [{name, first :: rest}], and
    [Parameter(name)] on that scope returns [(first, true)]. *)
Theorem Select_binds_first imp name options sel first rest :
  Value (imp_ctx imp) (parameterCtxKey name) = nil_any →
  Value (imp_ctx imp) parameterManagerCtxKey = selector_any sel →
  selector_Select sel name options = first :: rest →
  "*" ∈ options ∨ Forall (λ opt, opt ∈ options) (first :: rest) →
  ∃ imp',
    Impl.Select name options imp = (Ok first, imp', [EvSelector name options])
    ∧ imp_ctx imp' = WithValue (imp_ctx imp) (parameterCtxKey name) (string_any first)
    ∧ imp_parameterSelection imp' =
        Some {| ps_name := name; ps_options := first :: rest |}
    ∧ Impl.Parameter_ name imp' = (Ok (first, true), imp', []).
Proof.
  intros Hv Hs Hsel Hvalid.
  exists (after_selected imp name (first :: rest) first).
  split; [by apply (Select_unbound_valid _ _ _ sel)|].
  split; [done|]. split; [done|].
  apply Parameter_bound. simpl. by rewrite decide_True.
Qed.

Lemma Select_binds_first_witness :
  let imp := scopeWith (selector_any selectAll) ["TestX"] in
  ∃ imp',
    Impl.Select "p" ["a"; "b"] imp = (Ok "a", imp', [EvSelector "p" ["a"; "b"]])
    ∧ imp_ctx imp' = WithValue (imp_ctx imp) (parameterCtxKey "p") (string_any "a")
    ∧ imp_parameterSelection imp' =
        Some {| ps_name := "p"; ps_options := ["a"; "b"] |}
    ∧ Impl.Parameter_ "p" imp' = (Ok ("a", true), imp', []).
Proof.
  apply (Select_binds_first _ "p" ["a"; "b"] selectAll "a" ["b"]);
    [reflexivity|reflexivity|reflexivity|].
  right. repeat constructor; set_solver.
Defined.

(** C1 as stated fails: in one scope, [Select] of the unbound [q] after
    [Select] of the unbound [p] recorded [{p, ...}] is not fatal; it
    returns its first option, and the scope then holds [{q, ...}] where
    it held [{p, ...}]. *)
Lemma second_Select_counterexample :
  let imp0 := scopeWith (selector_any selectAll) ["TestX"] in
  ∃ imp1 imp2,
    Impl.Select "p" ["a"; "b"] imp0 = (Ok "a", imp1, [EvSelector "p" ["a"; "b"]])
    ∧ imp_parameterSelection imp1 = Some {| ps_name := "p"; ps_options := ["a"; "b"] |}
    ∧ Value (imp_ctx imp1) (parameterCtxKey "q") = nil_any
    ∧ Impl.Select "q" ["x"; "y"] imp1 = (Ok "x", imp2, [EvSelector "q" ["x"; "y"]])
    ∧ imp_parameterSelection imp2 = Some {| ps_name := "q"; ps_options := ["x"; "y"] |}.
Proof.
  intros imp0.
  exists (after_selected imp0 "p" ["a"; "b"] "a").
  exists (after_selected (after_selected imp0 "p" ["a"; "b"] "a") "q" ["x"; "y"] "x").
  repeat split.
Qed.

(** The plan of the body that selects [p] and then [q] in one scope runs
    the body under [p=a] only. *)
Lemma planCtx_selectTwo_selectAll fuel :
  let imp0 := scopeWith (selector_any selectAll) ["TestX"] in
  (Impl.planCtx (S (S fuel)) imp0 (imp_ctx imp0) "default" selectTwo).1 = Ok tt
  ∧ bodies_returned "p"
      (Impl.planCtx (S (S fuel)) imp0 (imp_ctx imp0) "default" selectTwo).2 =
    [(["TestX"; "default"], string_any "a");
     (["TestX"; "default"; "exhaust_q_y"], string_any "a")].
Proof. split; reflexivity. Qed.

(** C1, amended: in a scope that already recorded a selection for
    another name, [Select] of an unbound [name] is not fatal for that
    reason; as in a scope with no record, when the selector's answer
    [first :: rest] passes the verification the call returns [first] and
    extends the context with [name -> first], and the binding of the
    name recorded before stays as it was. *)
Theorem second_Select_succeeds imp ps name options sel first rest :
  imp_parameterSelection imp = Some ps →
  ps_name ps ≠ name →
  Value (imp_ctx imp) (parameterCtxKey name) = nil_any →
  Value (imp_ctx imp) parameterManagerCtxKey = selector_any sel →
  selector_Select sel name options = first :: rest →
  "*" ∈ options ∨ Forall (λ opt, opt ∈ options) (first :: rest) →
  ∃ imp',
    Impl.Select name options imp = (Ok first, imp', [EvSelector name options])
    ∧ imp_ctx imp' = WithValue (imp_ctx imp) (parameterCtxKey name) (string_any first)
    ∧ Value (imp_ctx imp') (parameterCtxKey (ps_name ps)) =
        Value (imp_ctx imp) (parameterCtxKey (ps_name ps)).
Proof.
  intros _ Hne Hv Hs Hsel Hvalid.
  exists (after_selected imp name (first :: rest) first).
  split; [by apply (Select_unbound_valid _ _ _ sel)|]. split; [done|].
  cbn. rewrite decide_False; [done|]. intros [= ->]. done.
Qed.

Lemma second_Select_succeeds_witness :
  let imp := after_selected (scopeWith (selector_any selectAll) ["TestX"])
               "p" ["a"; "b"] "a" in
  ∃ imp',
    Impl.Select "q" ["x"; "y"] imp = (Ok "x", imp', [EvSelector "q" ["x"; "y"]])
    ∧ imp_ctx imp' = WithValue (imp_ctx imp) (parameterCtxKey "q") (string_any "x")
    ∧ Value (imp_ctx imp') (parameterCtxKey "p") = Value (imp_ctx imp) (parameterCtxKey "p").
Proof.
  apply (second_Select_succeeds _ {| ps_name := "p"; ps_options := ["a"; "b"] |}
           "q" ["x"; "y"] selectAll "x" ["y"]);
    [reflexivity|discriminate|reflexivity|reflexivity|reflexivity|].
  right. repeat constructor; set_solver.
Defined.

(** ** Exhaustion *)

Lemma exhaust_loop_bound plan fn ctx name current options imp :
  Value ctx (parameterCtxKey name) = string_any current →
  Impl.exhaust_loop plan ctx name options fn imp =
    run_subplans plan fn name (remaining_subplans ctx name current options) imp.
Proof.
  intros Hv. revert imp. induction options as [|opt rest IH]; intros imp; [done|].
  cbn [Impl.exhaust_loop]. rewrite Hv. unfold remaining_subplans.
  rewrite filter_cons. cbn [is_nil when as_string].
  rewrite mret_bind, mret_bind.
  case_bool_decide as Heq; case_decide as Hne; try congruence.
  - rewrite mret_bind. apply IH.
  - cbn [map run_subplans]. apply bind_ext. intros _ imp'. apply IH.
Qed.

Lemma run_subplans_all_Ok plan fn name subplans imp :
  Forall (λ sp, (plan imp sp.2 sp.1.2 fn).1 = Ok tt) subplans →
  run_subplans plan fn name subplans imp =
    (Ok tt, imp,
     flat_map (λ sp, EvExhaust (imp_T imp) name sp.1.1
                       :: (plan imp sp.2 sp.1.2 fn).2) subplans).
Proof.
  induction subplans as [|[[o subName] subCtx] rest IH]; [done|].
  intros Hall. apply Forall_cons in Hall as [Hfirst Hrest]. cbn [fst snd] in Hfirst.
  cbn [run_subplans flat_map fst snd].
  erewrite bind_Ok; [|rewrite spawn_sub, Hfirst; reflexivity].
  by rewrite (IH Hrest).
Qed.

(** C3: for a scope that recorded [{name, options}] and whose context
    binds [name] to [current], exhaustion runs, in the order of the
    recorded options, one sub-plan for each option [o] that differs from
    [current] and none for an option equal to it: the sub-plan is the
    sub-test ["exhaust_" + name + "_" + o] of the scope and runs the same
    body under the scope's context with [name] rebound to [o].  When
    each of these sub-plans returns, exhaustion returns after the last
    one, with a trace made of theirs, one after the other. *)
Theorem exhaust_spawns_remaining fuel fn imp ps current :
  imp_parameterSelection imp = Some ps →
  Value (imp_ctx imp) (parameterCtxKey (ps_name ps)) = string_any current →
  let name := ps_name ps in
  let subplans := remaining_subplans (imp_ctx imp) name current (ps_options ps) in
  Impl.exhaust fuel fn imp = run_subplans (Impl.planCtx fuel) fn name subplans imp
  ∧ (Forall (λ sp, (Impl.planCtx fuel imp sp.2 sp.1.2 fn).1 = Ok tt) subplans →
     Impl.exhaust fuel fn imp =
       (Ok tt, imp,
        flat_map (λ sp, EvExhaust (imp_T imp) name sp.1.1
                          :: (Impl.planCtx fuel imp sp.2 sp.1.2 fn).2) subplans))
  ∧ map (λ sp, sp.1.1) subplans = filter (λ o, o ≠ current) (ps_options ps)
  ∧ Forall (λ sp, sp.1.2 = "exhaust_" +:+ name +:+ "_" +:+ sp.1.1
                  ∧ Value sp.2 (parameterCtxKey name) = string_any sp.1.1
                  ∧ ∀ fuel', head (Impl.planCtx (S fuel') imp sp.2 sp.1.2 fn).2
                             = Some (EvRunStart (imp_T imp ++ [sp.1.2]))) subplans.
Proof.
  intros Hps Hv name subplans.
  assert (Heq : Impl.exhaust fuel fn imp =
                run_subplans (Impl.planCtx fuel) fn name subplans imp).
  { unfold Impl.exhaust, Impl.exhaust_open.
    unfold mbind at 1, M_bind at 1, get at 1. rewrite Hps.
    unfold Impl.Ctx. rewrite bind_assoc.
    unfold mbind at 1, M_bind at 1, get at 1. rewrite mret_bind.
    rewrite (exhaust_loop_bound _ _ _ _ current) by done.
    by destruct (run_subplans _ _ _ _ _) as [[? ?] ?]. }
  split; [done|]. split; [|split].
  - rewrite Heq. apply run_subplans_all_Ok.
  - unfold subplans, remaining_subplans. rewrite map_map. apply map_id.
  - unfold subplans, remaining_subplans. apply Forall_map, Forall_forall.
    intros o _. cbn [fst snd]. split; [done|]. split.
    + simpl. by rewrite decide_True.
    + intros fuel'. cbn [Impl.planCtx]. unfold T_Run.
      by destruct (Impl.planCtx_closure _ _ _ _ _ _) as [[[]|[]] ?].
Qed.

Lemma exhaust_spawns_remaining_witness :
  let imp := after_selected (scopeWith (selector_any selectAll) ["TestX"; "default"])
               "p" ["a"; "b"; "c"] "a" in
  Impl.exhaust 3 selectOnce imp =
    (Ok tt, imp,
     flat_map (λ sp, EvExhaust (imp_T imp) "p" sp.1.1
                       :: (Impl.planCtx 3 imp sp.2 sp.1.2 selectOnce).2)
       (remaining_subplans (imp_ctx imp) "p" "a" ["a"; "b"; "c"])).
Proof.
  intros imp.
  refine (proj1 (proj2 (exhaust_spawns_remaining 3 selectOnce imp
            {| ps_name := "p"; ps_options := ["a"; "b"; "c"] |} "a" _ _)) _);
    [reflexivity|reflexivity|].
  repeat constructor.
Defined.

(** ** Order of the default path and the exhaustion *)

Lemma ordered_app stack tr1 tr2 :
  ordered stack (tr1 ++ tr2) = stack' ← ordered stack tr1; ordered stack' tr2.
Proof.
  revert stack. induction tr1 as [|e tr1 IH]; intros stack; [done|].
  simpl. destruct (ordered_step stack e) as [stack1|]; [|done]. apply IH.
Qed.

Lemma accepted_bind {A B} (m : M A) (f : A → M B) imp stack :
  accepted stack (m imp).1.1 (m imp).2 →
  (∀ a imp1 tr1, m imp = (Ok a, imp1, tr1) →
     accepted stack (f a imp1).1.1 (f a imp1).2) →
  accepted stack ((m ≫= f) imp).1.1 ((m ≫= f) imp).2.
Proof.
  intros (s1 & Ho1 & Hs1) Hf. unfold mbind, M_bind.
  destruct (m imp) as [[[a|e] imp1] tr1] eqn:Hm; cbn [fst snd] in *.
  - destruct (Hf a imp1 tr1 eq_refl) as (s2 & Ho2 & Hs2).
    rewrite (Hs1 I) in Ho1.
    destruct (f a imp1) as [[r2 imp2] tr2]. cbn [fst snd] in *.
    exists s2. split; [|done]. by rewrite ordered_app, Ho1.
  - by exists s1.
Qed.

Lemma Select_cases name options imp :
  Select_returns name options imp (Impl.Select name options imp).
Proof.
  destruct (Value (imp_ctx imp) (parameterCtxKey name)) as [|v|s] eqn:Hv.
  - destruct (Value (imp_ctx imp) parameterManagerCtxKey) as [|v|sel] eqn:Hs.
    + rewrite Select_nil_selector by done. constructor; auto.
    + replace (Impl.Select name options imp)
        with (@Exit string (Panic NotAParameterSelector), imp, @nil event).
      * constructor; auto.
      * unfold Impl.Select. unfold_M. by rewrite Hv, Hs.
    + rewrite (Select_unbound _ _ _ sel) by done. cbv zeta.
      destruct (selector_Select sel name options) as [|first rest];
        [constructor; auto|].
      destruct (if slices_Contains options "*" then _ else _);
        [constructor; auto|]. by constructor.
  - rewrite (Select_bound _ _ _ v) by done. destruct (_ && _); constructor; auto.
  - rewrite (Select_not_a_string _ _ _ s) by done. constructor; auto.
Qed.

Lemma accepted_Select name options imp stack :
  accepted stack (Impl.Select name options imp).1.1 (Impl.Select name options imp).2.
Proof.
  destruct (Select_cases name options imp) as [r tr _ [-> | ->]|first rest _];
    by exists stack.
Qed.

Lemma Select_imp_T name options imp :
  imp_T (Impl.Select name options imp).1.2 = imp_T imp.
Proof. by destruct (Select_cases name options imp). Qed.

Lemma Parameter_scope name imp :
  (Impl.Parameter_ name imp).1.2 = imp ∧ (Impl.Parameter_ name imp).2 = [].
Proof.
  unfold Impl.Parameter_, Impl.Ctx. unfold_M. cbn.
  by destruct (Value (imp_ctx imp) (parameterCtxKey name)).
Qed.

Lemma call_open_imp_T plan run fn imp :
  imp_T (Impl.call_open plan run fn imp).1.2 = imp_T imp.
Proof.
  revert imp. induction fn as [|name options k IH|name k IH|name fn' _ k IH|name fn' _ k IH];
    intros imp; cbn [Impl.call_open]; [done|..].
  - unfold mbind, M_bind. pose proof (Select_imp_T name options imp) as HT.
    destruct (Impl.Select name options imp) as [[[v|e] imp1] tr1]; [|done].
    specialize (IH v imp1). destruct (Impl.call_open _ _ _ _) as [[? ?] ?].
    cbn [fst snd] in *. congruence.
  - unfold mbind, M_bind. destruct (Parameter_scope name imp) as [HP _].
    destruct (Impl.Parameter_ name imp) as [[[v|e] imp1] tr1]; [|by rewrite <- HP].
    specialize (IH v.1 v.2 imp1). destruct (Impl.call_open _ _ _ _) as [[? ?] ?].
    cbn [fst snd] in *. congruence.
  - unfold Impl.Plan_open, Impl.Ctx. unfold mbind, M_bind, get, mret, M_ret, sub.
    destruct (plan imp (imp_ctx imp) name fn') as [[[]|e] tr1]; [|done].
    specialize (IH imp). by destruct (Impl.call_open _ _ _ _) as [[? ?] ?].
  - unfold mbind, M_bind, sub.
    destruct (run imp name fn') as [[[]|e] tr1]; [|done].
    specialize (IH imp). by destruct (Impl.call_open _ _ _ _) as [[? ?] ?].
Qed.

Section Ordered.
Variable plan : testImpl → Context → string → body → result unit * trace.
Variable run : testImpl → string → body → result unit * trace.
Hypothesis plan_accepted : ∀ imp ctx name fn stack,
  accepted stack (plan imp ctx name fn).1 (plan imp ctx name fn).2.
Hypothesis run_accepted : ∀ imp name fn stack,
  accepted stack (run imp name fn).1 (run imp name fn).2.

Lemma accepted_sub (f : testImpl → result unit * trace) imp stack :
  accepted stack (f imp).1 (f imp).2 →
  accepted stack (sub f imp).1.1 (sub f imp).2.
Proof. unfold sub. by destruct (f imp). Qed.

Lemma accepted_call fn imp stack :
  accepted stack (Impl.call_open plan run fn imp).1.1
                 (Impl.call_open plan run fn imp).2.
Proof.
  revert imp.
  induction fn as [|name options k IH|name k IH|name fn' _ k IH|name fn' _ k IH];
    intros imp; cbn [Impl.call_open].
  - by exists stack.
  - apply accepted_bind; [apply accepted_Select|]. intros v imp1 _ _. apply IH.
  - apply accepted_bind.
    + destruct (Parameter_scope name imp) as [_ ->]. by exists stack.
    + intros r imp1 _ _. apply IH.
  - apply accepted_bind; [|intros _ imp1 _ _; apply IH].
    rewrite Plan_open_sub. apply accepted_sub, plan_accepted.
  - apply accepted_bind; [|intros _ imp1 _ _; apply IH].
    apply accepted_sub, run_accepted.
Qed.

Lemma accepted_exhaust_loop ctx name options fn imp below :
  accepted ((imp_T imp, true) :: below)
    (Impl.exhaust_loop plan ctx name options fn imp).1.1
    (Impl.exhaust_loop plan ctx name options fn imp).2.
Proof.
  set (stack := (imp_T imp, true) :: below).
  assert (Hgen : ∀ imp', imp_T imp' = imp_T imp →
    accepted stack (Impl.exhaust_loop plan ctx name options fn imp').1.1
                   (Impl.exhaust_loop plan ctx name options fn imp').2);
    [|by apply Hgen].
  induction options as [|opt rest IH]; intros imp' HT; [by exists stack|].
  cbn [Impl.exhaust_loop].
  destruct (Value ctx (parameterCtxKey name)) as [|v|s]; cbn [is_nil when as_string].
  - exists stack. by unfold_M.
  - rewrite mret_bind, mret_bind. case_bool_decide.
    + rewrite mret_bind. by apply IH.
    + pose proof (plan_accepted imp'
        (WithValue ctx (parameterCtxKey name) (string_any opt))
        ("exhaust_" +:+ name +:+ "_" +:+ opt) fn stack) as (s1 & Ho1 & Hs1).
      pose proof (spawn_sub plan name opt
        (WithValue ctx (parameterCtxKey name) (string_any opt))
        ("exhaust_" +:+ name +:+ "_" +:+ opt) fn imp') as Hspawn.
      assert (Hstep : ∀ tr, ordered stack (EvExhaust (imp_T imp') name opt :: tr)
                            = ordered stack tr).
      { intros tr. cbn [ordered ordered_step]. unfold stack at 1.
        by rewrite HT, decide_True. }
      destruct (plan imp' _ _ fn) as [[[]|e] tr1]; cbn [fst snd] in *.
      * rewrite (bind_Ok _ _ _ _ _ _ Hspawn). cbn [fst snd].
        rewrite (Hs1 I) in Ho1. destruct (IH imp' HT) as (s2 & Ho2 & Hs2).
        exists s2. split; [|done].
        rewrite <- app_comm_cons, Hstep, ordered_app, Ho1. done.
      * rewrite (bind_Exit _ _ _ _ _ _ Hspawn). cbn [fst snd].
        exists s1. by rewrite Hstep.
  - exists stack. by unfold_M.
Qed.
End Ordered.

Lemma exhaust_open_loop plan fn imp :
  Impl.exhaust_open plan fn imp =
    match imp_parameterSelection imp with
    | None => (Ok tt, imp, [])
    | Some ps => Impl.exhaust_loop plan (imp_ctx imp) (ps_name ps) (ps_options ps) fn imp
    end.
Proof.
  unfold Impl.exhaust_open, Impl.Ctx.
  unfold mbind at 1, M_bind at 1, get at 1.
  destruct (imp_parameterSelection imp) as [ps|]; [|done].
  rewrite bind_assoc. unfold mbind at 1, M_bind at 1, get at 1.
  rewrite mret_bind.
  by destruct (Impl.exhaust_loop _ _ _ _ _ _) as [[? ?] ?].
Qed.

Lemma Run_closure_Exit plan run imp ctx fn t e imp' tr :
  Impl.call_open plan run fn (subScope_of imp ctx t) = (Exit e, imp', tr) →
  Impl.Run_closure plan run imp ctx fn t = (Exit e, tr).
Proof.
  intros H. unfold Impl.Run_closure. fold (subScope_of imp ctx t).
  cbv zeta. by rewrite (bind_Exit _ _ _ _ _ _ H).
Qed.

Lemma Run_closure_Ok plan run imp ctx fn t imp' tr :
  Impl.call_open plan run fn (subScope_of imp ctx t) = (Ok tt, imp', tr) →
  Impl.Run_closure plan run imp ctx fn t =
    (Ok tt, tr ++ [EvBodyReturned (imp_T imp') (imp_ctx imp')]).
Proof.
  intros H. unfold Impl.Run_closure. fold (subScope_of imp ctx t).
  cbv zeta. by rewrite (bind_Ok _ _ _ _ _ _ H).
Qed.

Lemma accepted_T_Run t name f below :
  accepted_in (t ++ [name]) below (f (t ++ [name])) →
  accepted below (T_Run t name f).1 (T_Run t name f).2.
Proof.
  intros (s1 & Ho1 & Hs1). unfold T_Run.
  assert (Hend : ∀ o, survives (f (t ++ [name])).1 →
    ordered below (EvRunStart (t ++ [name]) :: (f (t ++ [name])).2
                   ++ [EvRunEnd (t ++ [name]) o]) = Some below).
  { intros o Hsurv. destruct (Hs1 Hsurv) as [b ->].
    cbn [ordered ordered_step mbind option_bind]. rewrite ordered_app, Ho1.
    cbn [ordered ordered_step mbind option_bind]. by rewrite decide_True. }
  destruct (f (t ++ [name])) as [[[]|[m|m|m|]] tr]; cbn [fst snd] in *.
  - exists below. split; [by apply Hend|done].
  - exists below. split; [by apply Hend|done].
  - exists below. split; [by apply Hend|done].
  - by exists s1.
  - by exists s1.
Qed.

Section OrderedClosures.
Variable plan : testImpl → Context → string → body → result unit * trace.
Variable run : testImpl → string → body → result unit * trace.
Hypothesis plan_accepted : ∀ imp ctx name fn stack,
  accepted stack (plan imp ctx name fn).1 (plan imp ctx name fn).2.
Hypothesis run_accepted : ∀ imp name fn stack,
  accepted stack (run imp name fn).1 (run imp name fn).2.

Lemma accepted_planCtx_closure imp ctx fn t below :
  accepted_in t below (Impl.planCtx_closure plan run imp ctx fn t).
Proof.
  pose proof (accepted_call plan run plan_accepted run_accepted fn
                (subScope_of imp ctx t) ((t, false) :: below)) as (s1 & Ho1 & Hs1).
  pose proof (call_open_imp_T plan run fn (subScope_of imp ctx t)) as HT.
  destruct (Impl.call_open plan run fn (subScope_of imp ctx t))
    as [[[[]|e] imp'] tr] eqn:Hcall; cbn [fst snd] in *.
  - rewrite (planCtx_closure_Ok _ _ _ _ _ _ _ _ Hcall).
    rewrite (Hs1 I) in Ho1. rewrite HT. cbn [imp_T subScope_of].
    rewrite exhaust_open_loop.
    destruct (imp_parameterSelection imp') as [ps|]; cbn [fst snd].
    + destruct (accepted_exhaust_loop plan plan_accepted (imp_ctx imp')
                  (ps_name ps) (ps_options ps) fn imp' below) as (s2 & Ho2 & Hs2).
      rewrite HT in Ho2, Hs2. cbn [imp_T subScope_of] in Ho2, Hs2.
      exists s2. cbn [fst snd]. split.
      * rewrite ordered_app, Ho1. cbn [ordered ordered_step mbind option_bind].
        by rewrite decide_True.
      * intros Hsurv. exists true. by apply Hs2.
    + exists ((t, true) :: below). cbn [fst snd]. split; [|by exists true].
      rewrite ordered_app, Ho1. cbn [ordered ordered_step mbind option_bind].
      by rewrite decide_True.
  - rewrite (planCtx_closure_Exit _ _ _ _ _ _ _ _ _ Hcall). cbn [fst snd].
    exists s1. split; [done|]. intros Hsurv. exists false. by apply Hs1.
Qed.

Lemma accepted_Run_closure imp ctx fn t below :
  accepted_in t below (Impl.Run_closure plan run imp ctx fn t).
Proof.
  pose proof (accepted_call plan run plan_accepted run_accepted fn
                (subScope_of imp ctx t) ((t, false) :: below)) as (s1 & Ho1 & Hs1).
  pose proof (call_open_imp_T plan run fn (subScope_of imp ctx t)) as HT.
  destruct (Impl.call_open plan run fn (subScope_of imp ctx t))
    as [[[[]|e] imp'] tr] eqn:Hcall; cbn [fst snd] in *.
  - rewrite (Run_closure_Ok _ _ _ _ _ _ _ _ Hcall).
    rewrite (Hs1 I) in Ho1. rewrite HT. cbn [imp_T subScope_of fst snd].
    exists ((t, true) :: below). cbn [fst snd]. split; [|by exists true].
    rewrite ordered_app, Ho1. cbn [ordered ordered_step mbind option_bind].
    by rewrite decide_True.
  - rewrite (Run_closure_Exit _ _ _ _ _ _ _ _ _ Hcall). cbn [fst snd].
    exists s1. split; [done|]. intros Hsurv. exists false. by apply Hs1.
Qed.
End OrderedClosures.

Lemma accepted_planCtx_Run fuel :
  (∀ imp ctx name fn stack,
     accepted stack (Impl.planCtx fuel imp ctx name fn).1
                    (Impl.planCtx fuel imp ctx name fn).2)
  ∧ (∀ imp name fn stack,
     accepted stack (Impl.Run fuel imp name fn).1 (Impl.Run fuel imp name fn).2).
Proof.
  induction fuel as [|fuel [IHplan IHrun]].
  - split; intros; by exists stack.
  - split; intros; cbn [Impl.planCtx Impl.Run]; apply accepted_T_Run.
    + by apply accepted_planCtx_closure.
    + by apply accepted_Run_closure.
Qed.

(** C6: in every run of [planCtx], whatever the body, the context and the
    depth, each sibling run that the exhaustion of a scope starts is
    started when that scope's sub-test is the innermost open one and its
    body has returned, so that every sub-test opened under the body (its
    nested default paths and their own exhaustion) has ended before.  The
    trace is [ordered] from any [stack] of open sub-tests, the run comes
    back to [stack] when it returns, and at each [EvExhaust t] the
    sub-tests open after the events before it are [t], with its body
    returned, above the others. *)
Theorem default_path_before_exhaustion fuel imp ctx name fn stack :
  let x := Impl.planCtx fuel imp ctx name fn in
  (∃ stack', ordered stack x.2 = Some stack' ∧ (x.1 = Ok tt → stack' = stack))
  ∧ (∀ before t n opt after, x.2 = before ++ EvExhaust t n opt :: after →
       ∃ below, ordered stack before = Some ((t, true) :: below)).
Proof.
  intros x.
  destruct (proj1 (accepted_planCtx_Run fuel) imp ctx name fn stack)
    as (stack' & Ho & Hs). fold x in Ho, Hs.
  split.
  - exists stack'. split; [done|]. intros Hok. apply Hs. by rewrite Hok.
  - intros before t n opt after Htr. rewrite Htr, ordered_app in Ho.
    destruct (ordered stack before) as [[|[t' []] below]|];
      cbn [mbind option_bind ordered ordered_step] in Ho; try done.
    case_decide; [subst|done]. by exists below.
Qed.

(** [ordered] refuses a sibling run started before the body returned, and
    a body said to return while a sub-test under it is open. *)
Example ordered_refuses_early_exhaust :
  ordered [] [EvRunStart ["T"; "d"]; EvExhaust ["T"; "d"] "p" "b"] = None
  ∧ ordered [] [EvRunStart ["T"; "d"]; EvRunStart ["T"; "d"; "n"];
                EvBodyReturned ["T"; "d"] []] = None
  ∧ ordered [] [EvRunStart ["T"; "d"]; EvBodyReturned ["T"; "d"] [];
                EvRunStart ["T"; "d"; "n"]; EvExhaust ["T"; "d"] "p" "b"] = None.
Proof. repeat split. Qed.

(** ** The consistency check of exhaustion *)

Lemma clean_bind {A B} (m : M A) (f : A → M B) imp :
  clean (m imp).1.1 (m imp).2 →
  (∀ a imp1 tr1, m imp = (Ok a, imp1, tr1) → clean (f a imp1).1.1 (f a imp1).2) →
  clean ((m ≫= f) imp).1.1 ((m ≫= f) imp).2.
Proof.
  intros [Hr Htr] Hf. unfold mbind, M_bind.
  destruct (m imp) as [[[a|e] imp1] tr1]; [|done].
  destruct (Hf a imp1 tr1 eq_refl) as [Hr2 Htr2].
  destruct (f a imp1) as [[r2 imp2] tr2]. cbn [fst snd] in *.
  split; [done|]. by apply Forall_app.
Qed.

Lemma clean_T_Run t name f :
  clean (f (t ++ [name])).1 (f (t ++ [name])).2 →
  clean (T_Run t name f).1 (T_Run t name f).2.
Proof.
  intros [Hr Htr]. unfold T_Run.
  destruct (f (t ++ [name])) as [[[]|[m|m|m|]] tr]; cbn [fst snd] in *;
    (split; [done|]); repeat first [apply Forall_cons; split | apply Forall_app; split];
    try done.
Qed.

Lemma recorded_bound_Select name options imp :
  recorded_bound imp → recorded_bound (Impl.Select name options imp).1.2.
Proof.
  intros Hb. destruct (Select_cases name options imp) as [|first rest _]; [done|].
  unfold recorded_bound. cbn. exists first. by rewrite decide_True.
Qed.

Lemma clean_Select name options imp :
  clean (Impl.Select name options imp).1.1 (Impl.Select name options imp).2.
Proof.
  destruct (Select_cases name options imp) as [r tr Hr [-> | ->]|first rest _];
    split; cbn [fst snd]; try done; by repeat constructor.
Qed.

Section Clean.
Variable plan : testImpl → Context → string → body → result unit * trace.
Variable run : testImpl → string → body → result unit * trace.
Hypothesis plan_clean : ∀ imp ctx name fn,
  clean (plan imp ctx name fn).1 (plan imp ctx name fn).2.
Hypothesis run_clean : ∀ imp name fn,
  clean (run imp name fn).1 (run imp name fn).2.

Lemma clean_sub (f : testImpl → result unit * trace) imp :
  clean (f imp).1 (f imp).2 → clean (sub f imp).1.1 (sub f imp).2.
Proof. unfold sub. by destruct (f imp). Qed.

Lemma sub_scope (f : testImpl → result unit * trace) imp :
  (sub f imp).1.2 = imp.
Proof. unfold sub. by destruct (f imp). Qed.

Lemma clean_call fn imp :
  recorded_bound imp →
  clean (Impl.call_open plan run fn imp).1.1 (Impl.call_open plan run fn imp).2
  ∧ recorded_bound (Impl.call_open plan run fn imp).1.2.
Proof.
  revert imp.
  induction fn as [|name options k IH|name k IH|name fn' _ k IH|name fn' _ k IH];
    intros imp Hb; cbn [Impl.call_open].
  - by repeat split.
  - split.
    + apply clean_bind; [apply clean_Select|]. intros v imp1 tr1 HS.
      apply IH. generalize (recorded_bound_Select name options imp Hb).
      by rewrite HS.
    + pose proof (recorded_bound_Select name options imp Hb) as Hb1.
      unfold mbind, M_bind.
      destruct (Impl.Select name options imp) as [[[v|e] imp1] tr1]; [|done].
      destruct (IH v imp1 Hb1) as [_ Hb2].
      by destruct (Impl.call_open plan run (k v) imp1) as [[? ?] ?].
  - destruct (Parameter_scope name imp) as [HP Htr]. split.
    + apply clean_bind.
      * rewrite Htr. split; [|done].
        unfold Impl.Parameter_, Impl.Ctx. unfold_M. cbn.
        by destruct (Value (imp_ctx imp) (parameterCtxKey name)).
      * intros r imp1 tr1 Heq. rewrite Heq in HP. cbn in HP. subst imp1.
        by apply IH.
    + unfold mbind, M_bind.
      destruct (Impl.Parameter_ name imp) as [[[v|e] imp1] tr1];
        cbn [fst snd] in HP; subst imp1; [|done].
      destruct (IH v.1 v.2 imp Hb) as [_ Hb2].
      by destruct (Impl.call_open plan run (k v.1 v.2) imp) as [[? ?] ?].
  - split.
    + apply clean_bind.
      * rewrite Plan_open_sub. apply clean_sub, plan_clean.
      * intros [] imp1 tr1 Heq. rewrite Plan_open_sub in Heq.
        pose proof (sub_scope (λ imp0, plan imp0 (imp_ctx imp) name fn') imp) as Hs.
        rewrite Heq in Hs. cbn in Hs. subst imp1. by apply IH.
    + unfold mbind, M_bind. rewrite Plan_open_sub.
      pose proof (sub_scope (λ imp0, plan imp0 (imp_ctx imp) name fn') imp) as Hs.
      destruct (sub _ imp) as [[[[]|e] imp1] tr1]; cbn in Hs; subst imp1; [|done].
      destruct (IH imp Hb) as [_ Hb2].
      by destruct (Impl.call_open plan run k imp) as [[? ?] ?].
  - split.
    + apply clean_bind.
      * apply clean_sub, run_clean.
      * intros [] imp1 tr1 Heq.
        pose proof (sub_scope (λ imp0, run imp0 name fn') imp) as Hs.
        rewrite Heq in Hs. cbn in Hs. subst imp1. by apply IH.
    + unfold mbind, M_bind.
      pose proof (sub_scope (λ imp0, run imp0 name fn') imp) as Hs.
      destruct (sub _ imp) as [[[[]|e] imp1] tr1]; cbn in Hs; subst imp1; [|done].
      destruct (IH imp Hb) as [_ Hb2].
      by destruct (Impl.call_open plan run k imp) as [[? ?] ?].
Qed.

Lemma clean_run_subplans fn name subplans imp :
  clean (run_subplans plan fn name subplans imp).1.1
        (run_subplans plan fn name subplans imp).2.
Proof.
  revert imp. induction subplans as [|[[o subName] subCtx] rest IH]; intros imp.
  - by split.
  - cbn [run_subplans]. apply clean_bind; [|intros; apply IH].
    rewrite spawn_sub. cbn [fst snd]. destruct (plan_clean imp subCtx subName fn).
    split; [done|]. by constructor.
Qed.

Lemma clean_exhaust fn imp :
  recorded_bound imp →
  clean (Impl.exhaust_open plan fn imp).1.1 (Impl.exhaust_open plan fn imp).2.
Proof.
  intros Hb. rewrite exhaust_open_loop. unfold recorded_bound in Hb.
  destruct (imp_parameterSelection imp) as [ps|]; [|by split].
  destruct Hb as [v Hv]. rewrite (exhaust_loop_bound _ _ _ _ v) by done.
  apply clean_run_subplans.
Qed.

Lemma clean_planCtx_closure imp ctx fn t :
  clean (Impl.planCtx_closure plan run imp ctx fn t).1
        (Impl.planCtx_closure plan run imp ctx fn t).2.
Proof.
  destruct (clean_call fn (subScope_of imp ctx t) I) as [[Hr Htr] Hb].
  destruct (Impl.call_open plan run fn (subScope_of imp ctx t))
    as [[[[]|e] imp'] tr] eqn:Hcall; cbn [fst snd] in *.
  - rewrite (planCtx_closure_Ok _ _ _ _ _ _ _ _ Hcall). cbn [fst snd].
    destruct (clean_exhaust fn imp' Hb) as [Hr2 Htr2].
    split; [done|]. apply Forall_app. split; [done|]. by constructor.
  - by rewrite (planCtx_closure_Exit _ _ _ _ _ _ _ _ _ Hcall).
Qed.

Lemma clean_Run_closure imp ctx fn t :
  clean (Impl.Run_closure plan run imp ctx fn t).1
        (Impl.Run_closure plan run imp ctx fn t).2.
Proof.
  destruct (clean_call fn (subScope_of imp ctx t) I) as [[Hr Htr] Hb].
  destruct (Impl.call_open plan run fn (subScope_of imp ctx t))
    as [[[[]|e] imp'] tr] eqn:Hcall; cbn [fst snd] in *.
  - rewrite (Run_closure_Ok _ _ _ _ _ _ _ _ Hcall). cbn [fst snd].
    split; [done|]. apply Forall_app. split; [done|]. by repeat constructor.
  - by rewrite (Run_closure_Exit _ _ _ _ _ _ _ _ _ Hcall).
Qed.
End Clean.

Lemma clean_planCtx_Run fuel :
  (∀ imp ctx name fn,
     clean (Impl.planCtx fuel imp ctx name fn).1 (Impl.planCtx fuel imp ctx name fn).2)
  ∧ (∀ imp name fn,
     clean (Impl.Run fuel imp name fn).1 (Impl.Run fuel imp name fn).2).
Proof.
  induction fuel as [|fuel [IHplan IHrun]].
  - by repeat split.
  - split; intros; cbn [Impl.planCtx Impl.Run]; apply clean_T_Run.
    + by apply clean_planCtx_closure.
    + by apply clean_Run_closure.
Qed.

(** C7: a scope with a recorded [{name, options}] (never empty: [selected]
    refuses an empty set) whose context has no value for [name] fails
    exhaustion with the error of line 145; a selection recorded by
    [Select] comes with the binding of [name] to its first option, after
    which exhaustion does not fail so; and in no run of [planCtx] does a
    sub-test end with that failure. *)
Theorem exhaust_requires_default_binding :
  (∀ fuel fn imp ps,
     imp_parameterSelection imp = Some ps →
     ps_options ps ≠ [] →
     Value (imp_ctx imp) (parameterCtxKey (ps_name ps)) = nil_any →
     Impl.exhaust fuel fn imp =
       (Exit (Fatalf (ExhaustNotAfterDefault (ps_name ps))), imp, []))
  ∧ (∀ name options imp v imp' tr,
       Value (imp_ctx imp) (parameterCtxKey name) = nil_any →
       Impl.Select name options imp = (Ok v, imp', tr) →
       (∃ rest, imp_parameterSelection imp' =
                  Some {| ps_name := name; ps_options := v :: rest |})
       ∧ Value (imp_ctx imp') (parameterCtxKey name) = string_any v
       ∧ ∀ fuel fn, exhaust_fatal (Impl.exhaust fuel fn imp').1.1 = false)
  ∧ (∀ fuel imp ctx name fn,
       Forall (λ e, is_exhaust_failure e = false)
         (Impl.planCtx fuel imp ctx name fn).2).
Proof.
  split; [|split].
  - intros fuel fn imp ps Hps Hne Hv. unfold Impl.exhaust.
    rewrite exhaust_open_loop, Hps.
    destruct (ps_options ps) as [|opt rest]; [done|].
    cbn [Impl.exhaust_loop]. by rewrite Hv.
  - intros name options imp v imp' tr Hv HS.
    assert (Himp : ∃ rest, imp' = after_selected imp name (v :: rest) v).
    { destruct (Value (imp_ctx imp) parameterManagerCtxKey) as [|s|sel] eqn:Hs.
      - by rewrite Select_nil_selector in HS.
      - unfold Impl.Select in HS. unfold_M. by rewrite Hv, Hs in HS.
      - rewrite (Select_unbound _ _ _ sel) in HS by done. cbv zeta in HS.
        destruct (selector_Select sel name options) as [|first rest]; [done|].
        destruct (if slices_Contains options "*" then _ else _); [done|].
        injection HS as <- <- <-. by exists rest. }
    destruct Himp as [rest ->]. split; [by exists rest|]. split.
    + cbn. by rewrite decide_True.
    + intros fuel fn. apply clean_exhaust.
      * intros. apply (clean_planCtx_Run fuel).
      * unfold recorded_bound. cbn. exists v. by rewrite decide_True.
  - intros fuel imp ctx name fn. apply (clean_planCtx_Run fuel).
Qed.

Lemma exhaust_requires_default_binding_witness :
  let imp := {| imp_T := ["TestX"; "default"]; imp_ctx := Plan_ctx;
                imp_logLvl := slog_LevelError;
                imp_parameterSelection :=
                  Some {| ps_name := "p"; ps_options := ["a"; "b"] |} |} in
  Impl.exhaust 3 selectOnce imp =
    (Exit (Fatalf (ExhaustNotAfterDefault "p")), imp, []).
Proof.
  intros imp.
  apply (proj1 exhaust_requires_default_binding 3 selectOnce imp
           {| ps_name := "p"; ps_options := ["a"; "b"] |});
    [reflexivity|discriminate|reflexivity].
Defined.

(** ** The entry point and its selector *)

Lemma Value_with_parameters_manager ctx bindings :
  Value (with_parameters ctx bindings) parameterManagerCtxKey =
  Value ctx parameterManagerCtxKey.
Proof.
  revert ctx. induction bindings as [|b bindings IH]; intros ctx; [done|].
  simpl. by rewrite IH.
Qed.

Lemma Plan_unbound_Select_panics fuel t name options k :
  Plan (S fuel) t (CallSelect name options k) =
    (Exit (Panic NotAParameterSelector), [EvRunStart (t ++ ["default"])]).
Proof.
  unfold Plan, Impl.Plan, Impl.Plan_open, Impl.Ctx. cbv zeta.
  assert (Hplan : Impl.planCtx (S fuel) (Plan_imp t) Plan_ctx "default"
                    (CallSelect name options k)
                  = (Exit (Panic NotAParameterSelector), [EvRunStart (t ++ ["default"])])).
  { cbn [Impl.planCtx]. unfold T_Run.
    erewrite planCtx_closure_Exit;
      [|cbn [Impl.call_open]; by apply bind_Exit, Select_nil_selector].
    done. }
  unfold mbind, M_bind, get, mret, M_ret, sub. cbn [imp_ctx Plan_imp].
  by rewrite Hplan.
Qed.

Lemma Select_quiet name options imp :
  Value (imp_ctx imp) parameterManagerCtxKey = nil_any →
  (Impl.Select name options imp).1.2 = imp ∧ (Impl.Select name options imp).2 = [].
Proof.
  intros Hs. destruct (Value (imp_ctx imp) (parameterCtxKey name)) as [|v|s] eqn:Hv.
  - by rewrite Select_nil_selector.
  - rewrite (Select_bound _ _ _ v) by done. by destruct (_ && _).
  - by rewrite (Select_not_a_string _ _ _ s).
Qed.

Lemma quiet_bind {A B} (m : M A) (f : A → M B) imp :
  quiet (m imp).2 →
  (∀ a imp1 tr1, m imp = (Ok a, imp1, tr1) → quiet (f a imp1).2) →
  quiet ((m ≫= f) imp).2.
Proof.
  intros Htr Hf. unfold mbind, M_bind.
  destruct (m imp) as [[[a|e] imp1] tr1]; [|done].
  specialize (Hf a imp1 tr1 eq_refl).
  destruct (f a imp1) as [[r2 imp2] tr2]. by apply Forall_app.
Qed.

Lemma quiet_T_Run t name f :
  quiet (f (t ++ [name])).2 → quiet (T_Run t name f).2.
Proof.
  intros Htr. unfold T_Run.
  destruct (f (t ++ [name])) as [[[]|[m|m|m|]] tr]; cbn [fst snd] in *;
    repeat first [apply Forall_cons; split | apply Forall_app; split]; done.
Qed.

Section Quiet.
Variable plan : testImpl → Context → string → body → result unit * trace.
Variable run : testImpl → string → body → result unit * trace.
Hypothesis plan_quiet : ∀ imp ctx name fn,
  Value ctx parameterManagerCtxKey = nil_any → quiet (plan imp ctx name fn).2.
Hypothesis run_quiet : ∀ imp name fn,
  Value (imp_ctx imp) parameterManagerCtxKey = nil_any → quiet (run imp name fn).2.

Lemma quiet_call fn imp :
  Value (imp_ctx imp) parameterManagerCtxKey = nil_any →
  quiet (Impl.call_open plan run fn imp).2
  ∧ imp_ctx (Impl.call_open plan run fn imp).1.2 = imp_ctx imp.
Proof.
  revert imp.
  induction fn as [|name options k IH|name k IH|name fn' _ k IH|name fn' _ k IH];
    intros imp Hs; cbn [Impl.call_open].
  - by split.
  - destruct (Select_quiet name options imp Hs) as [Himp Htr].
    unfold mbind, M_bind.
    destruct (Impl.Select name options imp) as [[[v|e] imp1] tr1];
      cbn [fst snd] in *; subst; [|by split].
    destruct (IH v imp Hs) as [Hq Hc].
    by destruct (Impl.call_open plan run (k v) imp) as [[? ?] ?].
  - destruct (Parameter_scope name imp) as [Himp Htr].
    unfold mbind, M_bind.
    destruct (Impl.Parameter_ name imp) as [[[v|e] imp1] tr1];
      cbn [fst snd] in *; subst; [|by split].
    destruct (IH v.1 v.2 imp Hs) as [Hq Hc].
    by destruct (Impl.call_open plan run (k v.1 v.2) imp) as [[? ?] ?].
  - unfold mbind, M_bind. rewrite Plan_open_sub. unfold sub.
    pose proof (plan_quiet imp (imp_ctx imp) name fn' Hs) as Hp.
    destruct (plan imp (imp_ctx imp) name fn') as [[[]|e] tr1]; [|by split].
    destruct (IH imp Hs) as [Hq Hc].
    destruct (Impl.call_open plan run k imp) as [[? ?] ?].
    split; [by apply Forall_app|done].
  - unfold mbind, M_bind, sub.
    pose proof (run_quiet imp name fn' Hs) as Hp.
    destruct (run imp name fn') as [[[]|e] tr1]; [|by split].
    destruct (IH imp Hs) as [Hq Hc].
    destruct (Impl.call_open plan run k imp) as [[? ?] ?].
    split; [by apply Forall_app|done].
Qed.

Lemma quiet_exhaust_loop ctx name options fn imp :
  Value ctx parameterManagerCtxKey = nil_any →
  quiet (Impl.exhaust_loop plan ctx name options fn imp).2.
Proof.
  intros Hs. revert imp. induction options as [|opt rest IH]; intros imp; [done|].
  cbn [Impl.exhaust_loop].
  destruct (Value ctx (parameterCtxKey name)) as [|v|s]; cbn [is_nil when as_string];
    [done| |done].
  rewrite mret_bind, mret_bind. case_bool_decide.
  - rewrite mret_bind. apply IH.
  - apply quiet_bind; [|intros; apply IH].
    rewrite spawn_sub. cbn [fst snd]. apply Forall_cons. split; [done|].
    by apply plan_quiet.
Qed.

Lemma quiet_planCtx_closure imp ctx fn t :
  Value ctx parameterManagerCtxKey = nil_any →
  quiet (Impl.planCtx_closure plan run imp ctx fn t).2.
Proof.
  intros Hs. destruct (quiet_call fn (subScope_of imp ctx t) Hs) as [Hq Hc].
  destruct (Impl.call_open plan run fn (subScope_of imp ctx t))
    as [[[[]|e] imp'] tr] eqn:Hcall; cbn [fst snd] in *.
  - rewrite (planCtx_closure_Ok _ _ _ _ _ _ _ _ Hcall). cbn [fst snd].
    apply Forall_app. split; [done|]. apply Forall_cons. split; [done|].
    rewrite exhaust_open_loop. destruct (imp_parameterSelection imp'); [|done].
    apply quiet_exhaust_loop. by rewrite Hc.
  - by rewrite (planCtx_closure_Exit _ _ _ _ _ _ _ _ _ Hcall).
Qed.

Lemma quiet_Run_closure imp ctx fn t :
  Value ctx parameterManagerCtxKey = nil_any →
  quiet (Impl.Run_closure plan run imp ctx fn t).2.
Proof.
  intros Hs. destruct (quiet_call fn (subScope_of imp ctx t) Hs) as [Hq Hc].
  destruct (Impl.call_open plan run fn (subScope_of imp ctx t))
    as [[[[]|e] imp'] tr] eqn:Hcall; cbn [fst snd] in *.
  - rewrite (Run_closure_Ok _ _ _ _ _ _ _ _ Hcall). cbn [fst snd].
    apply Forall_app. split; [done|]. by repeat constructor.
  - by rewrite (Run_closure_Exit _ _ _ _ _ _ _ _ _ Hcall).
Qed.
End Quiet.

Lemma quiet_planCtx_Run fuel :
  (∀ imp ctx name fn,
     Value ctx parameterManagerCtxKey = nil_any →
     quiet (Impl.planCtx fuel imp ctx name fn).2)
  ∧ (∀ imp name fn,
     Value (imp_ctx imp) parameterManagerCtxKey = nil_any →
     quiet (Impl.Run fuel imp name fn).2).
Proof.
  induction fuel as [|fuel [IHplan IHrun]].
  - by split.
  - split; intros; cbn [Impl.planCtx Impl.Run]; apply quiet_T_Run.
    + by apply quiet_planCtx_closure.
    + by apply quiet_Run_closure.
Qed.

Lemma quiet_Plan fuel t fn : quiet (Plan fuel t fn).2.
Proof.
  unfold Plan. cbv zeta. cbn [fst snd]. apply quiet_bind.
  - unfold Impl.Plan. rewrite Plan_open_sub. unfold sub.
    pose proof (proj1 (quiet_planCtx_Run fuel) (Plan_imp t) Plan_ctx "default" fn eq_refl).
    cbn [imp_ctx Plan_imp].
    by destruct (Impl.planCtx fuel (Plan_imp t) Plan_ctx "default" fn).
  - intros [] imp1 tr1 Heq. unfold Impl.Plan in Heq. rewrite Plan_open_sub in Heq.
    unfold sub in Heq. cbn [imp_ctx Plan_imp] in Heq.
    destruct (Impl.planCtx fuel (Plan_imp t) Plan_ctx "default" fn) as [r tr].
    injection Heq as _ <- _. by unfold Impl.exhaust; rewrite exhaust_open_loop.
Qed.

(** C5: [Plan] puts a nil selector in the root context, and no context
    derived from it by binding parameters has another; in a scope with
    such a context [Select] on a name that is not bound panics on the
    type assertion, without consulting any selector and without touching
    the scope; so a body handed to [Plan] that starts with a [Select]
    takes the run down, and no run of [Plan] has a call of a selector
    in its trace. *)
Theorem Plan_selector_is_nil :
  Value Plan_ctx parameterManagerCtxKey = nil_any
  ∧ (∀ bindings, Value (with_parameters Plan_ctx bindings) parameterManagerCtxKey = nil_any)
  ∧ (∀ imp name options,
       Value (imp_ctx imp) parameterManagerCtxKey = nil_any →
       Value (imp_ctx imp) (parameterCtxKey name) = nil_any →
       Impl.Select name options imp = (Exit (Panic NotAParameterSelector), imp, []))
  ∧ (∀ fuel t name options k,
       Plan (S fuel) t (CallSelect name options k) =
         (Exit (Panic NotAParameterSelector), [EvRunStart (t ++ ["default"])]))
  ∧ (∀ fuel t fn, Forall (λ e, is_selector_call e = false) (Plan fuel t fn).2).
Proof.
  split; [done|]. split; [|split; [|split]].
  - intros bindings. by rewrite Value_with_parameters_manager.
  - intros imp name options Hs Hv. by apply Select_nil_selector.
  - apply Plan_unbound_Select_panics.
  - apply quiet_Plan.
Qed.

Lemma Plan_selector_is_nil_witness :
  let imp := subScope_of (Plan_imp ["TestX"])
               (with_parameters Plan_ctx [("p", "a")]) ["TestX"; "default"] in
  Impl.Select "q" ["x"; "y"] imp = (Exit (Panic NotAParameterSelector), imp, []).
Proof.
  apply (proj1 (proj2 (proj2 Plan_selector_is_nil))); reflexivity.
Defined.

(** With a selector that runs every option in the context, the body that
    selects [p] once is run three times, under [p=a], [p=b] and [p=c]. *)
Lemma planCtx_selectOnce_selectAll fuel :
  let imp := scopeWith (selector_any selectAll) ["TestX"] in
  (Impl.planCtx (S (S fuel)) imp (imp_ctx imp) "default" selectOnce).1 = Ok tt
  ∧ bodies_returned "p"
      (Impl.planCtx (S (S fuel)) imp (imp_ctx imp) "default" selectOnce).2 =
    [(["TestX"; "default"], string_any "a");
     (["TestX"; "default"; "exhaust_p_b"], string_any "b");
     (["TestX"; "default"; "exhaust_p_c"], string_any "c")].
Proof. split; reflexivity. Qed.

(** C2 on the code: through [Plan] the body that selects [p] once does
    not complete a single execution; its [Select] panics in the sub-test
    [default], since the context of [Plan] has no selector. *)
Theorem Plan_selectOnce_panics fuel t :
  Plan (S fuel) t selectOnce =
    (Exit (Panic NotAParameterSelector), [EvRunStart (t ++ ["default"])])
  ∧ bodies_returned "p" (Plan (S fuel) t selectOnce).2 = [].
Proof.
  unfold selectOnce. by rewrite Plan_unbound_Select_panics.
Qed.

(** * Further properties *)

(** ** [Select] and [selected] *)

(** X1: after [Select(name, options...)] returned [v], the scope binds
    [name] to [v]: [Parameter(name)] gives [(v, true)], the same call
    again returns [v] without a call of the selector, and a [Select] of
    [name] whose options have neither [v] nor the wildcard is fatal. *)
Theorem Select_settles name options imp v imp' tr :
  Impl.Select name options imp = (Ok v, imp', tr) →
  Value (imp_ctx imp') (parameterCtxKey name) = string_any v
  ∧ Impl.Parameter_ name imp' = (Ok (v, true), imp', [])
  ∧ Impl.Select name options imp' = (Ok v, imp', [])
  ∧ (∀ options', v ∉ options' → "*" ∉ options' →
       Impl.Select name options' imp' =
         (Exit (Fatalf (AlreadyAssumed name options' v)), imp', [])).
Proof.
  intros HS.
  assert (Hbound : Value (imp_ctx imp') (parameterCtxKey name) = string_any v
                   ∧ (slices_Contains options "*" = true
                      ∨ slices_Contains options v = true)).
  { destruct (Value (imp_ctx imp) (parameterCtxKey name)) as [|w|s] eqn:Hv.
    - destruct (Value (imp_ctx imp) parameterManagerCtxKey) as [|s|sel] eqn:Hs.
      + by rewrite Select_nil_selector in HS.
      + unfold Impl.Select in HS. unfold_M. by rewrite Hv, Hs in HS.
      + rewrite (Select_unbound _ _ _ sel) in HS by done. cbv zeta in HS.
        destruct (selector_Select sel name options) as [|first rest]; [done|].
        destruct (slices_Contains options "*") eqn:Hw.
        * injection HS as <- <- <-. split; [|by left].
          cbn. by rewrite decide_True.
        * destruct (first_foreign options (first :: rest)) eqn:Hff; [done|].
          injection HS as <- <- <-. split; [cbn; by rewrite decide_True|].
          right. apply first_foreign_None, Forall_cons in Hff as [Hin _].
          by apply Contains_spec.
    - rewrite (Select_bound _ _ _ w) in HS by done.
      destruct (slices_Contains options "*") eqn:Hw;
        destruct (slices_Contains options w) eqn:Hc; cbn in HS; try done;
        simplify_eq; (split; [done|]); auto.
    - by rewrite (Select_not_a_string _ _ _ s) in HS. }
  destruct Hbound as [Hv Hvalid]. split; [done|]. split; [|split].
  - by apply Parameter_bound.
  - rewrite (Select_bound _ _ _ v) by done.
    by destruct Hvalid as [-> | ->]; [|rewrite andb_false_r].
  - intros options' Hin Hw. rewrite (Select_bound _ _ _ v) by done.
    apply Contains_false in Hin, Hw. by rewrite Hin, Hw.
Qed.

Lemma Select_settles_witness :
  let imp := scopeWith (selector_any selectAll) ["TestX"] in
  let imp' := after_selected imp "p" ["a"; "b"] "a" in
  Impl.Select "p" ["a"; "b"] imp' = (Ok "a", imp', [])
  ∧ Impl.Select "p" ["x"; "y"] imp' =
      (Exit (Fatalf (AlreadyAssumed "p" ["x"; "y"] "a")), imp', []).
Proof.
  intros imp imp'.
  destruct (Select_settles "p" ["a"; "b"] imp "a" imp' [EvSelector "p" ["a"; "b"]]
              eq_refl) as (_ & _ & Hagain & Hother).
  split; [exact Hagain|]. apply Hother; by apply Contains_false.
Defined.

Lemma selected_empty name imp :
  Impl.selected name [] imp = (Exit (Fatalf (EmptySetOfOptions name)), imp, []).
Proof. reflexivity. Qed.

Lemma selected_bound name options imp v :
  options ≠ [] →
  Value (imp_ctx imp) (parameterCtxKey name) = string_any v →
  Impl.selected name options imp =
    (Exit (Fatalf (OptionAlreadySelected name v)), imp, []).
Proof.
  intros Hne Hv. destruct options as [|first rest]; [done|].
  unfold Impl.selected. unfold_M. simpl. rewrite Hv. by unfold_M.
Qed.

Lemma Select_exit_cases name options imp :
  Select_exit (Impl.Select name options imp).1.1 = true.
Proof.
  destruct (Value (imp_ctx imp) (parameterCtxKey name)) as [|v|s] eqn:Hv.
  - destruct (Value (imp_ctx imp) parameterManagerCtxKey) as [|v|sel] eqn:Hs.
    + by rewrite Select_nil_selector.
    + unfold Impl.Select. unfold_M. by rewrite Hv, Hs.
    + rewrite (Select_unbound _ _ _ sel) by done. cbv zeta.
      destruct (selector_Select sel name options) as [|first rest]; [done|].
      by destruct (if slices_Contains options "*" then _ else _).
  - rewrite (Select_bound _ _ _ v) by done. by destruct (_ && _).
  - by rewrite (Select_not_a_string _ _ _ s).
Qed.

(** X2: [selected] refuses an empty set of options and a name that the
    context already binds, both with the scope left as it was; [Select]
    never trips either guard, since it calls [selected] only with an
    answer that is not empty and for a name it found unbound. *)
Theorem selected_guards name options imp :
  Impl.selected name [] imp = (Exit (Fatalf (EmptySetOfOptions name)), imp, [])
  ∧ (∀ v, options ≠ [] →
       Value (imp_ctx imp) (parameterCtxKey name) = string_any v →
       Impl.selected name options imp =
         (Exit (Fatalf (OptionAlreadySelected name v)), imp, []))
  ∧ (∀ name', (Impl.Select name options imp).1.1
              ≠ Exit (Fatalf (EmptySetOfOptions name')))
  ∧ (∀ name' v, (Impl.Select name options imp).1.1
                ≠ Exit (Fatalf (OptionAlreadySelected name' v))).
Proof.
  pose proof (Select_exit_cases name options imp) as Hexit.
  split; [apply selected_empty|]. split; [|split].
  - intros v Hne Hv. by apply selected_bound.
  - intros name' Heq. by rewrite Heq in Hexit.
  - intros name' v Heq. by rewrite Heq in Hexit.
Qed.

Lemma selected_guards_witness :
  let imp := after_selected (scopeWith (selector_any selectAll) ["TestX"])
               "p" ["a"; "b"] "a" in
  Impl.selected "p" ["b"] imp = (Exit (Fatalf (OptionAlreadySelected "p" "a")), imp, []).
Proof.
  intros imp.
  apply (proj1 (proj2 (selected_guards "p" ["b"] imp)) "a");
    [discriminate|reflexivity].
Defined.

(** ** What running a body keeps *)

Lemma Select_keeps_Value name options imp key :
  Value (imp_ctx imp) key ≠ nil_any →
  Value (imp_ctx (Impl.Select name options imp).1.2) key = Value (imp_ctx imp) key.
Proof.
  intros Hkey. destruct (Select_cases name options imp) as [|first rest Hv]; [done|].
  cbn. case_decide; [|done]. subst key. by rewrite Hv in Hkey.
Qed.

Lemma call_open_keeps_Value plan run fn imp key :
  Value (imp_ctx imp) key ≠ nil_any →
  Value (imp_ctx (Impl.call_open plan run fn imp).1.2) key = Value (imp_ctx imp) key.
Proof.
  revert imp. induction fn as [|name options k IH|name k IH|name fn' _ k IH|name fn' _ k IH];
    intros imp Hkey; cbn [Impl.call_open]; [done|..].
  - pose proof (Select_keeps_Value name options imp key Hkey) as HS.
    unfold mbind, M_bind.
    destruct (Impl.Select name options imp) as [[[v|e] imp1] tr1];
      cbn [fst snd] in HS; [|done].
    assert (Hkey1 : Value (imp_ctx imp1) key ≠ nil_any) by by rewrite HS.
    specialize (IH v imp1 Hkey1).
    destruct (Impl.call_open plan run (k v) imp1) as [[? ?] ?].
    cbn [fst snd] in *. congruence.
  - destruct (Parameter_scope name imp) as [HP _]. unfold mbind, M_bind.
    destruct (Impl.Parameter_ name imp) as [[[v|e] imp1] tr1];
      cbn [fst snd] in HP; subst imp1; [|done].
    specialize (IH v.1 v.2 imp Hkey).
    by destruct (Impl.call_open plan run (k v.1 v.2) imp) as [[? ?] ?].
  - unfold mbind, M_bind. rewrite Plan_open_sub. unfold sub.
    destruct (plan imp (imp_ctx imp) name fn') as [[[]|e] tr1]; [|done].
    specialize (IH imp Hkey).
    by destruct (Impl.call_open plan run k imp) as [[? ?] ?].
  - unfold mbind, M_bind, sub.
    destruct (run imp name fn') as [[[]|e] tr1]; [|done].
    specialize (IH imp Hkey).
    by destruct (Impl.call_open plan run k imp) as [[? ?] ?].
Qed.

(** X3: running a body on a scope, to its end or to the point where it
    leaves, changes no value that the scope's context holds: a parameter
    that is bound keeps its value, the selector stays, and the scope
    keeps its sub-test. *)
Theorem call_keeps_bindings fuel fn imp key :
  Value (imp_ctx imp) key ≠ nil_any →
  Value (imp_ctx (Impl.call fuel fn imp).1.2) key = Value (imp_ctx imp) key
  ∧ imp_T (Impl.call fuel fn imp).1.2 = imp_T imp.
Proof.
  intros Hkey. split.
  - by apply call_open_keeps_Value.
  - apply call_open_imp_T.
Qed.

Lemma call_keeps_bindings_witness :
  let imp := after_selected (scopeWith (selector_any selectAll) ["TestX"])
               "p" ["a"; "b"] "a" in
  Value (imp_ctx (Impl.call 3 selectTwo imp).1.2) (parameterCtxKey "p") = string_any "a".
Proof.
  intros imp.
  refine (eq_trans (proj1 (call_keeps_bindings 3 selectTwo imp (parameterCtxKey "p") _)) _);
    [discriminate|reflexivity].
Defined.

(** A property of scopes that [Select] keeps is kept by a whole body:
    the other calls leave the scope as it is. *)
Lemma call_open_invariant (Inv : testImpl → Prop) plan run fn imp :
  (∀ name options imp0, Inv imp0 → Inv (Impl.Select name options imp0).1.2) →
  Inv imp → Inv (Impl.call_open plan run fn imp).1.2.
Proof.
  intros HSelect. revert imp.
  induction fn as [|name options k IH|name k IH|name fn' _ k IH|name fn' _ k IH];
    intros imp Hinv; cbn [Impl.call_open]; [done|..].
  - pose proof (HSelect name options imp Hinv) as HS. unfold mbind, M_bind.
    destruct (Impl.Select name options imp) as [[[v|e] imp1] tr1];
      cbn [fst snd] in HS; [|done].
    specialize (IH v imp1 HS).
    by destruct (Impl.call_open plan run (k v) imp1) as [[? ?] ?].
  - destruct (Parameter_scope name imp) as [HP _]. unfold mbind, M_bind.
    destruct (Impl.Parameter_ name imp) as [[[v|e] imp1] tr1];
      cbn [fst snd] in HP; subst imp1; [|done].
    specialize (IH v.1 v.2 imp Hinv).
    by destruct (Impl.call_open plan run (k v.1 v.2) imp) as [[? ?] ?].
  - unfold mbind, M_bind. rewrite Plan_open_sub. unfold sub.
    destruct (plan imp (imp_ctx imp) name fn') as [[[]|e] tr1]; [|done].
    specialize (IH imp Hinv).
    by destruct (Impl.call_open plan run k imp) as [[? ?] ?].
  - unfold mbind, M_bind, sub.
    destruct (run imp name fn') as [[[]|e] tr1]; [|done].
    specialize (IH imp Hinv).
    by destruct (Impl.call_open plan run k imp) as [[? ?] ?].
Qed.

Lemma recorded_default_Select name options imp :
  recorded_default imp → recorded_default (Impl.Select name options imp).1.2.
Proof.
  intros Hd. destruct (Select_cases name options imp) as [|first rest _]; [done|].
  unfold recorded_default. cbn. exists first, rest. by rewrite decide_True.
Qed.

Lemma remaining_subplans_default ctx name first rest :
  remaining_subplans ctx name first (first :: rest) =
  remaining_subplans ctx name first rest.
Proof. unfold remaining_subplans. by rewrite filter_cons_False by auto. Qed.

(** X4: when the body of a sub-test returns, the selection its scope
    holds has a first option and the scope's context binds the name to
    that option, whatever the body did; so exhaustion starts with the
    second recorded option, and runs the sub-plans of the options after
    the first that differ from it. *)
Theorem exhaust_skips_default fuel fn imp0 ctx t ps :
  let imp' := (Impl.call fuel fn (subScope_of imp0 ctx t)).1.2 in
  imp_parameterSelection imp' = Some ps →
  ∃ first rest,
    ps_options ps = first :: rest
    ∧ Value (imp_ctx imp') (parameterCtxKey (ps_name ps)) = string_any first
    ∧ Impl.exhaust fuel fn imp' =
        run_subplans (Impl.planCtx fuel) fn (ps_name ps)
          (remaining_subplans (imp_ctx imp') (ps_name ps) first rest) imp'.
Proof.
  intros imp' Hps.
  assert (Hd : recorded_default imp').
  { unfold imp', Impl.call.
    apply call_open_invariant; [apply recorded_default_Select|done]. }
  unfold recorded_default in Hd. rewrite Hps in Hd.
  destruct Hd as (first & rest & Hopts & Hv). exists first, rest.
  split; [done|]. split; [done|].
  unfold Impl.exhaust. rewrite exhaust_open_loop, Hps, Hopts.
  rewrite (exhaust_loop_bound _ _ _ _ first) by done.
  by rewrite remaining_subplans_default.
Qed.

Lemma exhaust_skips_default_witness :
  let imp0 := scopeWith (selector_any selectAll) ["TestX"] in
  let imp' := (Impl.call 3 selectOnce
                 (subScope_of imp0 (imp_ctx imp0) ["TestX"; "default"])).1.2 in
  ∃ first rest,
    ["a"; "b"; "c"] = first :: rest
    ∧ Value (imp_ctx imp') (parameterCtxKey "p") = string_any first
    ∧ Impl.exhaust 3 selectOnce imp' =
        run_subplans (Impl.planCtx 3) selectOnce "p"
          (remaining_subplans (imp_ctx imp') "p" first rest) imp'.
Proof.
  intros imp0 imp'.
  apply (exhaust_skips_default 3 selectOnce imp0 (imp_ctx imp0) ["TestX"; "default"]
           {| ps_name := "p"; ps_options := ["a"; "b"; "c"] |}).
  reflexivity.
Defined.

(** X5: in the scope of the sub-plan that exhaustion starts for an
    option [o] of [name], [Parameter(name)] gives [(o, true)] although
    the default is still further up the context, a [Select] of [name]
    that admits [o] returns [o] without a call of the selector, and every
    other key has the value it has in the exhausting scope. *)
Theorem subplan_sees_rebound imp ctx t name o :
  let subCtx := WithValue ctx (parameterCtxKey name) (string_any o) in
  let subScope := subScope_of imp subCtx t in
  Impl.Parameter_ name subScope = (Ok (o, true), subScope, [])
  ∧ (∀ options, o ∈ options ∨ "*" ∈ options →
       Impl.Select name options subScope = (Ok o, subScope, []))
  ∧ (∀ key, key ≠ parameterCtxKey name → Value subCtx key = Value ctx key)
  ∧ (∀ other, other ≠ name →
       (Impl.Parameter_ other subScope).1.1
       = (Impl.Parameter_ other (subScope_of imp ctx t)).1.1).
Proof.
  intros subCtx subScope.
  assert (Hv : Value (imp_ctx subScope) (parameterCtxKey name) = string_any o).
  { cbn. by rewrite decide_True. }
  assert (Hother : ∀ key, key ≠ parameterCtxKey name → Value subCtx key = Value ctx key).
  { intros key Hne. cbn. by rewrite decide_False. }
  split; [by apply Parameter_bound|]. split; [|split; [done|]].
  - intros options Hin. rewrite (Select_bound _ _ _ o) by done.
    destruct Hin as [Hin|Hin]; apply Contains_spec in Hin; rewrite Hin;
      [by rewrite andb_false_r|done].
  - intros other Hne. unfold Impl.Parameter_, Impl.Ctx. unfold_M.
    change (imp_ctx subScope) with subCtx.
    change (imp_ctx (subScope_of imp ctx t)) with ctx.
    rewrite (Hother (parameterCtxKey other)) by congruence.
    destruct (Value ctx (parameterCtxKey other)); by unfold_M.
Qed.

Lemma subplan_sees_rebound_witness :
  let imp := scopeWith (selector_any selectAll) ["TestX"] in
  let ctx := WithValue (imp_ctx imp) (parameterCtxKey "p") (string_any "a") in
  let subScope := subScope_of imp (WithValue ctx (parameterCtxKey "p") (string_any "b"))
                    ["TestX"; "default"; "exhaust_p_b"] in
  Impl.Select "p" ["a"; "b"] subScope = (Ok "b", subScope, []).
Proof.
  intros imp ctx subScope.
  apply (proj1 (proj2 (subplan_sees_rebound imp ctx
           ["TestX"; "default"; "exhaust_p_b"] "p" "b"))).
  left. by apply Contains_spec.
Defined.

(** ** Where the sub-tests of a run are *)

Lemma below_under t tr : below t tr → under t tr.
Proof.
  intros Hb. eapply Forall_impl; [exact Hb|].
  intros e He t' Ht'. destruct (He t' Ht') as [name Hp].
  etrans; [|exact Hp]. by apply prefix_app_r.
Qed.

Lemma under_below t name tr : under (t ++ [name]) tr → below t tr.
Proof.
  intros Hu. eapply Forall_impl; [exact Hu|].
  intros e He t' Ht'. exists name. by apply He.
Qed.

Lemma below_Select t name options imp : below t (Impl.Select name options imp).2.
Proof.
  destruct (Select_cases name options imp) as [r tr _ [-> | ->]|first rest _];
    cbn [snd]; repeat constructor; done.
Qed.

Section Under.
Variable plan : testImpl → Context → string → body → result unit * trace.
Variable run : testImpl → string → body → result unit * trace.
Hypothesis plan_under : ∀ imp ctx name fn,
  under (imp_T imp ++ [name]) (plan imp ctx name fn).2.
Hypothesis run_under : ∀ imp name fn,
  under (imp_T imp ++ [name]) (run imp name fn).2.

Lemma below_call fn imp : below (imp_T imp) (Impl.call_open plan run fn imp).2.
Proof.
  revert imp. induction fn as [|name options k IH|name k IH|name fn' _ k IH|name fn' _ k IH];
    intros imp; cbn [Impl.call_open]; [by constructor|..].
  - pose proof (below_Select (imp_T imp) name options imp) as HS.
    pose proof (Select_imp_T name options imp) as HT.
    unfold mbind, M_bind.
    destruct (Impl.Select name options imp) as [[[v|e] imp1] tr1];
      cbn [fst snd] in *; [|done].
    specialize (IH v imp1). rewrite HT in IH.
    destruct (Impl.call_open plan run (k v) imp1) as [[? ?] ?].
    by apply Forall_app.
  - destruct (Parameter_scope name imp) as [HP Htr]. unfold mbind, M_bind.
    destruct (Impl.Parameter_ name imp) as [[[v|e] imp1] tr1];
      cbn [fst snd] in *; subst; [|by constructor].
    specialize (IH v.1 v.2 imp).
    by destruct (Impl.call_open plan run (k v.1 v.2) imp) as [[? ?] ?].
  - unfold mbind, M_bind. rewrite Plan_open_sub. unfold sub.
    pose proof (under_below _ _ _ (plan_under imp (imp_ctx imp) name fn')) as Hp.
    destruct (plan imp (imp_ctx imp) name fn') as [[[]|e] tr1]; [|done].
    specialize (IH imp).
    destruct (Impl.call_open plan run k imp) as [[? ?] ?]. by apply Forall_app.
  - unfold mbind, M_bind, sub.
    pose proof (under_below _ _ _ (run_under imp name fn')) as Hp.
    destruct (run imp name fn') as [[[]|e] tr1]; [|done].
    specialize (IH imp).
    destruct (Impl.call_open plan run k imp) as [[? ?] ?]. by apply Forall_app.
Qed.

Lemma under_exhaust_loop ctx name options fn imp :
  under (imp_T imp) (Impl.exhaust_loop plan ctx name options fn imp).2.
Proof.
  assert (Hgen : ∀ imp', imp_T imp' = imp_T imp →
    under (imp_T imp) (Impl.exhaust_loop plan ctx name options fn imp').2);
    [|by apply Hgen].
  induction options as [|opt rest IH]; intros imp' HT; [by constructor|].
  cbn [Impl.exhaust_loop].
  destruct (Value ctx (parameterCtxKey name)) as [|v|s]; cbn [is_nil when as_string];
    [by constructor| |by constructor].
  rewrite mret_bind, mret_bind. case_bool_decide.
  - rewrite mret_bind. by apply IH.
  - pose proof (spawn_sub plan name opt
      (WithValue ctx (parameterCtxKey name) (string_any opt))
      ("exhaust_" +:+ name +:+ "_" +:+ opt) fn imp') as Hspawn.
    pose proof (below_under _ _ (under_below _ _ _ (plan_under imp'
      (WithValue ctx (parameterCtxKey name) (string_any opt))
      ("exhaust_" +:+ name +:+ "_" +:+ opt) fn))) as Hp.
    rewrite HT in Hp.
    assert (Hfirst : under (imp_T imp) [EvExhaust (imp_T imp') name opt]).
    { repeat constructor. intros t' [= <-]. by rewrite HT. }
    destruct (plan imp' _ _ fn) as [[[]|e] tr1]; cbn [fst snd] in *.
    + rewrite (bind_Ok _ _ _ _ _ _ Hspawn). cbn [fst snd].
      apply Forall_app. split; [by apply (Forall_app _ [_] tr1)|by apply IH].
    + rewrite (bind_Exit _ _ _ _ _ _ Hspawn). cbn [fst snd].
      by apply (Forall_app _ [_] tr1).
Qed.

Lemma under_planCtx_closure imp ctx fn t :
  under t (Impl.planCtx_closure plan run imp ctx fn t).2.
Proof.
  pose proof (below_under _ _ (below_call fn (subScope_of imp ctx t))) as Hc.
  pose proof (call_open_imp_T plan run fn (subScope_of imp ctx t)) as HT.
  destruct (Impl.call_open plan run fn (subScope_of imp ctx t))
    as [[[[]|e] imp'] tr] eqn:Hcall; cbn [fst snd imp_T subScope_of] in *.
  - rewrite (planCtx_closure_Ok _ _ _ _ _ _ _ _ Hcall). cbn [fst snd].
    apply Forall_app. split; [done|]. apply Forall_cons. split.
    + intros t' [= <-]. by rewrite HT.
    + rewrite exhaust_open_loop, <- HT.
      destruct (imp_parameterSelection imp'); [|by constructor].
      apply under_exhaust_loop.
  - by rewrite (planCtx_closure_Exit _ _ _ _ _ _ _ _ _ Hcall).
Qed.

Lemma Run_closure_trace imp ctx fn t :
  ∃ tr, below t tr
        ∧ ((Impl.Run_closure plan run imp ctx fn t).2 = tr
           ∨ ∃ ctx', (Impl.Run_closure plan run imp ctx fn t).2
                     = tr ++ [EvBodyReturned t ctx']).
Proof.
  pose proof (below_call fn (subScope_of imp ctx t)) as Hc.
  pose proof (call_open_imp_T plan run fn (subScope_of imp ctx t)) as HT.
  destruct (Impl.call_open plan run fn (subScope_of imp ctx t))
    as [[[[]|e] imp'] tr] eqn:Hcall; cbn [fst snd imp_T subScope_of] in *;
    exists tr; (split; [done|]).
  - right. exists (imp_ctx imp').
    by rewrite (Run_closure_Ok _ _ _ _ _ _ _ _ Hcall), HT.
  - left. by rewrite (Run_closure_Exit _ _ _ _ _ _ _ _ _ Hcall).
Qed.
End Under.

Lemma under_T_Run t name f :
  under (t ++ [name]) (f (t ++ [name])).2 → under (t ++ [name]) (T_Run t name f).2.
Proof.
  intros Htr. unfold T_Run.
  destruct (f (t ++ [name])) as [[[]|[m|m|m|]] tr]; cbn [fst snd] in *;
    repeat first [apply Forall_cons; split | apply Forall_app; split];
    try done; by intros t' [= <-].
Qed.

Lemma under_planCtx_Run fuel :
  (∀ imp ctx name fn, under (imp_T imp ++ [name]) (Impl.planCtx fuel imp ctx name fn).2)
  ∧ (∀ imp name fn, under (imp_T imp ++ [name]) (Impl.Run fuel imp name fn).2).
Proof.
  induction fuel as [|fuel [IHplan IHrun]].
  - split; intros; by constructor.
  - split; intros; cbn [Impl.planCtx Impl.Run]; apply under_T_Run.
    + by apply under_planCtx_closure.
    + destruct (Run_closure_trace _ _ IHplan IHrun imp (imp_ctx imp) fn
                  (imp_T imp ++ [name])) as (tr & Hb & [-> | [ctx' ->]]).
      * by apply below_under.
      * apply Forall_app. split; [by apply below_under|].
        repeat constructor. by intros t' [= <-].
Qed.

(** X6: every sub-test that a call of [planCtx] or [Run] starts, ends,
    marks or exhausts is the sub-test of that call, named after the
    caller's, or lies under it. *)
Theorem subtests_nest fuel imp ctx name fn :
  under (imp_T imp ++ [name]) (Impl.planCtx fuel imp ctx name fn).2
  ∧ under (imp_T imp ++ [name]) (Impl.Run fuel imp name fn).2.
Proof. split; apply (under_planCtx_Run fuel). Qed.

Lemma below_not_self t tr n opt : below t tr → EvExhaust t n opt ∉ tr.
Proof.
  intros Hb Hin. unfold below in Hb. rewrite Forall_forall in Hb.
  destruct (Hb _ Hin t eq_refl) as [name Hp].
  apply prefix_length in Hp. rewrite length_app in Hp. simpl in Hp. lia.
Qed.

(** X7: [Run] does not exhaust: whatever its body selects, no exhaustion
    starts from the sub-test of a [Run] (the plans that its body starts
    exhaust under their own sub-tests). *)
Theorem Run_never_exhausts fuel imp name fn n opt :
  EvExhaust (imp_T imp ++ [name]) n opt ∉ (Impl.Run fuel imp name fn).2.
Proof.
  destruct fuel as [|fuel]; [by apply not_elem_of_nil|].
  cbn [Impl.Run]. set (t := imp_T imp ++ [name]).
  destruct (Run_closure_trace _ _ (proj1 (under_planCtx_Run fuel))
              (proj2 (under_planCtx_Run fuel)) imp (imp_ctx imp) fn t)
    as (tr & Hb & Htr).
  pose proof (below_not_self t tr n opt Hb) as Hnot.
  assert (Hcl : EvExhaust t n opt ∉ (Impl.Run_closure (Impl.planCtx fuel)
                  (Impl.Run fuel) imp (imp_ctx imp) fn t).2).
  { destruct Htr as [-> | [ctx' ->]]; [done|].
    rewrite elem_of_app, list_elem_of_singleton. by intros [?|?]. }
  unfold T_Run. fold t.
  destruct (Impl.Run_closure _ _ imp (imp_ctx imp) fn t) as [[[]|[m|m|m|]] trc];
    cbn [fst snd] in *.
  1-3: intros [H|[H|H%list_elem_of_singleton]%elem_of_app]%elem_of_cons;
    [discriminate H|done|discriminate H].
  all: intros [H|H]%elem_of_cons; [discriminate H|done].
Qed.

(** ** Plans that select nothing, and the entry point *)

Lemma no_Select_call plan run fn imp :
  no_Select fn → (Impl.call_open plan run fn imp).1.2 = imp.
Proof.
  induction fn as [|name options k IH|name k IH|name fn' _ k IH|name fn' _ k IH];
    cbn [Impl.call_open no_Select]; intros Hno; [done|done|..].
  - destruct (Parameter_scope name imp) as [HP _]. unfold mbind, M_bind.
    destruct (Impl.Parameter_ name imp) as [[[v|e] imp1] tr1];
      cbn [fst snd] in HP; subst imp1; [|done].
    specialize (IH v.1 v.2 (Hno v.1 v.2)).
    by destruct (Impl.call_open plan run (k v.1 v.2) imp) as [[? ?] ?].
  - unfold mbind, M_bind. rewrite Plan_open_sub. unfold sub.
    destruct (plan imp (imp_ctx imp) name fn') as [[[]|e] tr1]; [|done].
    specialize (IH Hno). by destruct (Impl.call_open plan run k imp) as [[? ?] ?].
  - unfold mbind, M_bind, sub.
    destruct (run imp name fn') as [[[]|e] tr1]; [|done].
    specialize (IH Hno). by destruct (Impl.call_open plan run k imp) as [[? ?] ?].
Qed.

(** X8: for a body that makes no [Select] on its own scope,
    [Plan(name, fn)] is [Run(name, fn)]: same result, same trace, nothing
    exhausted. *)
Theorem Plan_without_Select_is_Run fuel name fn imp :
  no_Select fn →
  Impl.Plan (S fuel) name fn imp = sub (λ imp0, Impl.Run (S fuel) imp0 name fn) imp.
Proof.
  intros Hno. unfold Impl.Plan. rewrite Plan_open_sub. unfold sub.
  cbn [Impl.planCtx Impl.Run]. unfold T_Run.
  set (t := imp_T imp ++ [name]).
  pose proof (no_Select_call (Impl.planCtx fuel) (Impl.Run fuel) fn
                (subScope_of imp (imp_ctx imp) t) Hno) as Himp.
  destruct (Impl.call_open (Impl.planCtx fuel) (Impl.Run fuel) fn
              (subScope_of imp (imp_ctx imp) t)) as [[[[]|e] imp'] tr] eqn:Hcall;
    cbn [fst snd] in Himp; subst imp'.
  - rewrite (planCtx_closure_Ok _ _ _ _ _ _ _ _ Hcall),
      (Run_closure_Ok _ _ _ _ _ _ _ _ Hcall).
    by rewrite exhaust_open_loop.
  - by rewrite (planCtx_closure_Exit _ _ _ _ _ _ _ _ _ Hcall),
      (Run_closure_Exit _ _ _ _ _ _ _ _ _ Hcall).
Qed.

Lemma Plan_without_Select_is_Run_witness :
  let imp := scopeWith (selector_any selectAll) ["TestX"] in
  let fn := CallParameter "p" (λ _ _, CallRun "leaf" selectOnce Return) in
  Impl.Plan 3 "node" fn imp = sub (λ imp0, Impl.Run 3 imp0 "node" fn) imp.
Proof.
  intros imp fn. apply (Plan_without_Select_is_Run 2 "node" fn imp).
  intros v ok. exact I.
Defined.

Lemma Plan_planCtx fuel t fn :
  Plan fuel t fn = Impl.planCtx fuel (Plan_imp t) Plan_ctx "default" fn.
Proof.
  unfold Plan, Impl.Plan. cbv zeta. unfold mbind, M_bind.
  rewrite Plan_open_sub. unfold sub. cbn [imp_ctx Plan_imp].
  destruct (Impl.planCtx fuel (Plan_imp t) Plan_ctx "default" fn) as [[[]|e] tr];
    [|done].
  unfold Impl.exhaust. rewrite exhaust_open_loop. cbn. by rewrite app_nil_r.
Qed.

(** X9: [Plan] ends with an exhaustion on its own scope, which never has
    a selection: the entry point is one plan named [default] and nothing
    more. *)
Theorem Plan_is_default_plan fuel t fn :
  Plan fuel t fn = Impl.planCtx fuel (Plan_imp t) Plan_ctx "default" fn
  ∧ Impl.exhaust fuel fn (Plan_imp t) = (Ok tt, Plan_imp t, []).
Proof.
  split; [apply Plan_planCtx|].
  unfold Impl.exhaust. by rewrite exhaust_open_loop.
Qed.

Lemma inert_bind {A B} ctx (m : M A) (f : A → M B) imp :
  Forall (inert ctx) (m imp).2 →
  (∀ a imp1 tr1, m imp = (Ok a, imp1, tr1) → Forall (inert ctx) (f a imp1).2) →
  Forall (inert ctx) ((m ≫= f) imp).2.
Proof.
  intros Htr Hf. unfold mbind, M_bind.
  destruct (m imp) as [[[a|e] imp1] tr1]; [|done].
  specialize (Hf a imp1 tr1 eq_refl).
  destruct (f a imp1) as [[r2 imp2] tr2]. by apply Forall_app.
Qed.

Section Inert.
Variable ctx0 : Context.
Hypothesis no_selector : Value ctx0 parameterManagerCtxKey = nil_any.
Variable plan : testImpl → Context → string → body → result unit * trace.
Variable run : testImpl → string → body → result unit * trace.
Hypothesis plan_inert : ∀ imp name fn, Forall (inert ctx0) (plan imp ctx0 name fn).2.
Hypothesis run_inert : ∀ imp name fn,
  imp_ctx imp = ctx0 → Forall (inert ctx0) (run imp name fn).2.

Lemma inert_call fn imp :
  imp_ctx imp = ctx0 →
  Forall (inert ctx0) (Impl.call_open plan run fn imp).2
  ∧ (Impl.call_open plan run fn imp).1.2 = imp.
Proof.
  intros Hctx.
  induction fn as [|name options k IH|name k IH|name fn' _ k IH|name fn' _ k IH];
    cbn [Impl.call_open].
  - by split.
  - destruct (Select_quiet name options imp) as [Himp Htr]; [by rewrite Hctx|].
    unfold mbind, M_bind.
    destruct (Impl.Select name options imp) as [[[v|e] imp1] tr1];
      cbn [fst snd] in *; subst; [|by split].
    destruct (IH v) as [Hq Hc].
    by destruct (Impl.call_open plan run (k v) imp) as [[? ?] ?].
  - destruct (Parameter_scope name imp) as [Himp Htr]. unfold mbind, M_bind.
    destruct (Impl.Parameter_ name imp) as [[[v|e] imp1] tr1];
      cbn [fst snd] in *; subst; [|by split].
    destruct (IH v.1 v.2) as [Hq Hc].
    by destruct (Impl.call_open plan run (k v.1 v.2) imp) as [[? ?] ?].
  - unfold mbind, M_bind. rewrite Plan_open_sub. unfold sub.
    pose proof (plan_inert imp name fn') as Hp. rewrite Hctx.
    destruct (plan imp ctx0 name fn') as [[[]|e] tr1]; [|by split].
    destruct IH as [Hq Hc].
    destruct (Impl.call_open plan run k imp) as [[? ?] ?].
    split; [by apply Forall_app|done].
  - unfold mbind, M_bind, sub.
    pose proof (run_inert imp name fn' Hctx) as Hp.
    destruct (run imp name fn') as [[[]|e] tr1]; [|by split].
    destruct IH as [Hq Hc].
    destruct (Impl.call_open plan run k imp) as [[? ?] ?].
    split; [by apply Forall_app|done].
Qed.

Lemma inert_planCtx_closure imp fn t :
  Forall (inert ctx0) (Impl.planCtx_closure plan run imp ctx0 fn t).2.
Proof.
  destruct (inert_call fn (subScope_of imp ctx0 t) eq_refl) as [Hq Hc].
  destruct (Impl.call_open plan run fn (subScope_of imp ctx0 t))
    as [[[[]|e] imp'] tr] eqn:Hcall; cbn [fst snd] in *; subst.
  - rewrite (planCtx_closure_Ok _ _ _ _ _ _ _ _ Hcall). cbn [fst snd].
    apply Forall_app. split; [done|]. rewrite exhaust_open_loop. by repeat constructor.
  - by rewrite (planCtx_closure_Exit _ _ _ _ _ _ _ _ _ Hcall).
Qed.

Lemma inert_Run_closure imp fn t :
  Forall (inert ctx0) (Impl.Run_closure plan run imp ctx0 fn t).2.
Proof.
  destruct (inert_call fn (subScope_of imp ctx0 t) eq_refl) as [Hq Hc].
  destruct (Impl.call_open plan run fn (subScope_of imp ctx0 t))
    as [[[[]|e] imp'] tr] eqn:Hcall; cbn [fst snd] in *; subst.
  - rewrite (Run_closure_Ok _ _ _ _ _ _ _ _ Hcall). cbn [fst snd].
    apply Forall_app. split; [done|]. by repeat constructor.
  - by rewrite (Run_closure_Exit _ _ _ _ _ _ _ _ _ Hcall).
Qed.
End Inert.

Lemma inert_T_Run ctx t name f :
  Forall (inert ctx) (f (t ++ [name])).2 → Forall (inert ctx) (T_Run t name f).2.
Proof.
  intros Htr. unfold T_Run.
  destruct (f (t ++ [name])) as [[[]|[m|m|m|]] tr]; cbn [fst snd] in *;
    repeat first [apply Forall_cons; split | apply Forall_app; split]; done.
Qed.

Lemma inert_planCtx_Run ctx0 fuel :
  Value ctx0 parameterManagerCtxKey = nil_any →
  (∀ imp name fn, Forall (inert ctx0) (Impl.planCtx fuel imp ctx0 name fn).2)
  ∧ (∀ imp name fn, imp_ctx imp = ctx0 →
       Forall (inert ctx0) (Impl.Run fuel imp name fn).2).
Proof.
  intros Hnil. induction fuel as [|fuel [IHplan IHrun]].
  - by split.
  - split; intros; cbn [Impl.planCtx Impl.Run]; apply inert_T_Run.
    + by apply inert_planCtx_closure.
    + subst ctx0. by apply inert_Run_closure.
Qed.

(** X10: a plan under a context without a selector, as every run of
    [Plan] is, never selects: whatever the body, no selector is called,
    nothing is exhausted, and every body that returns does so under the
    context it was started with, no parameter bound. *)
Theorem plan_without_selector_is_inert fuel :
  (∀ ctx0 imp name fn,
     Value ctx0 parameterManagerCtxKey = nil_any →
     Forall (inert ctx0) (Impl.planCtx fuel imp ctx0 name fn).2)
  ∧ (∀ t fn, Forall (inert Plan_ctx) (Plan fuel t fn).2).
Proof.
  split.
  - intros ctx0 imp name fn Hnil. by apply (inert_planCtx_Run ctx0 fuel).
  - intros t fn. rewrite Plan_planCtx. by apply (inert_planCtx_Run Plan_ctx fuel).
Qed.

Lemma plan_without_selector_is_inert_witness :
  Forall (inert (with_parameters Plan_ctx [("p", "a")]))
    (Impl.planCtx 3 (Plan_imp ["TestX"]) (with_parameters Plan_ctx [("p", "a")])
       "default" selectTwo).2.
Proof.
  apply (proj1 (plan_without_selector_is_inert 3)). reflexivity.
Defined.

(** ** One selection, all its options *)

Lemma bodies_returned_app name tr1 tr2 :
  bodies_returned name (tr1 ++ tr2) = bodies_returned name tr1 ++ bodies_returned name tr2.
Proof. apply omap_app. Qed.

(** The plan of a body that only selects a name the context binds. *)
Lemma planCtx_bound_selection fuel imp ctx sub name options o :
  Value ctx (parameterCtxKey name) = string_any o →
  o ∈ options ∨ "*" ∈ options →
  Impl.planCtx (S fuel) imp ctx sub (CallSelect name options (λ _, Return)) =
    (Ok tt, [EvRunStart (imp_T imp ++ [sub]);
             EvBodyReturned (imp_T imp ++ [sub]) ctx;
             EvRunEnd (imp_T imp ++ [sub]) Completed]).
Proof.
  intros Hv Hin. cbn [Impl.planCtx]. unfold T_Run.
  set (t := imp_T imp ++ [sub]).
  assert (Hcall : Impl.call_open (Impl.planCtx fuel) (Impl.Run fuel)
                    (CallSelect name options (λ _, Return)) (subScope_of imp ctx t)
                  = (Ok tt, subScope_of imp ctx t, [])).
  { assert (HS : Impl.Select name options (subScope_of imp ctx t)
                   = (Ok o, subScope_of imp ctx t, [])).
    { rewrite (Select_bound _ _ _ o) by done.
      destruct Hin as [Hin|Hin]; apply Contains_spec in Hin; rewrite Hin;
        [by rewrite andb_false_r|done]. }
    cbn [Impl.call_open]. by rewrite (bind_Ok _ _ _ _ _ _ HS). }
  rewrite (planCtx_closure_Ok _ _ _ _ _ _ _ _ Hcall). by rewrite exhaust_open_loop.
Qed.

(** X11: under a selector whose answer [first :: rest] for a name that
    is not bound yet passes the verification, the plan of the body that
    selects that name and does nothing else returns, and it has run the
    body once under [first] and then once under each option of [rest]
    that differs from [first], in the sub-test named after the option. *)
Theorem single_selection_runs_all fuel imp ctx sub name options sel first rest :
  Value ctx (parameterCtxKey name) = nil_any →
  Value ctx parameterManagerCtxKey = selector_any sel →
  selector_Select sel name options = first :: rest →
  "*" ∈ options ∨ Forall (λ opt, opt ∈ options) (first :: rest) →
  let t := imp_T imp ++ [sub] in
  let x := Impl.planCtx (S (S fuel)) imp ctx sub (CallSelect name options (λ _, Return)) in
  x.1 = Ok tt
  ∧ bodies_returned name x.2 =
      (t, string_any first)
      :: map (λ o, (t ++ ["exhaust_" +:+ name +:+ "_" +:+ o], string_any o))
           (filter (λ o, o ≠ first) rest).
Proof.
  intros Hv Hs Hsel Hvalid t x. unfold x.
  remember (S fuel) as fuel1 eqn:Hfuel. cbn [Impl.planCtx]. subst fuel1.
  unfold T_Run. fold t.
  set (imp1 := after_selected (subScope_of imp ctx t) name (first :: rest) first).
  assert (Hcall : Impl.call_open (Impl.planCtx (S fuel)) (Impl.Run (S fuel))
                    (CallSelect name options (λ _, Return)) (subScope_of imp ctx t)
                  = (Ok tt, imp1, [EvSelector name options])).
  { cbn [Impl.call_open].
    by rewrite (bind_Ok _ _ _ _ _ _
                  (Select_unbound_valid (subScope_of imp ctx t) name options sel
                     first rest Hv Hs Hsel Hvalid)). }
  rewrite (planCtx_closure_Ok _ _ _ _ _ _ _ _ Hcall).
  assert (Hv1 : Value (imp_ctx imp1) (parameterCtxKey name) = string_any first).
  { cbn. by rewrite decide_True. }
  rewrite exhaust_open_loop. cbn [imp_parameterSelection imp1 after_selected ps_name ps_options].
  rewrite (exhaust_loop_bound _ _ _ _ first) by done.
  rewrite remaining_subplans_default.
  assert (Hsub : ∀ o, o ∈ rest →
    Impl.planCtx (S fuel) imp1
      (WithValue (imp_ctx imp1) (parameterCtxKey name) (string_any o))
      ("exhaust_" +:+ name +:+ "_" +:+ o) (CallSelect name options (λ _, Return))
    = (Ok tt, [EvRunStart (t ++ ["exhaust_" +:+ name +:+ "_" +:+ o]);
               EvBodyReturned (t ++ ["exhaust_" +:+ name +:+ "_" +:+ o])
                 (WithValue (imp_ctx imp1) (parameterCtxKey name) (string_any o));
               EvRunEnd (t ++ ["exhaust_" +:+ name +:+ "_" +:+ o]) Completed])).
  { intros o Ho. apply (planCtx_bound_selection fuel imp1 _ _ name options o).
    - cbn. by rewrite decide_True.
    - destruct Hvalid as [Hw|Hall]; [by right|left].
      rewrite Forall_forall in Hall. apply Hall. by right. }
  unfold remaining_subplans.
  assert (Hrun : ∀ l, (∀ o, o ∈ l → o ∈ rest) →
    let subplans := map (λ o, (o, "exhaust_" +:+ name +:+ "_" +:+ o,
                       WithValue (imp_ctx imp1) (parameterCtxKey name) (string_any o))) l in
    (run_subplans (Impl.planCtx (S fuel)) (CallSelect name options (λ _, Return))
       name subplans imp1).1.1 = Ok tt
    ∧ bodies_returned name
        (run_subplans (Impl.planCtx (S fuel)) (CallSelect name options (λ _, Return))
           name subplans imp1).2
      = map (λ o, (t ++ ["exhaust_" +:+ name +:+ "_" +:+ o], string_any o)) l).
  { induction l as [|o l IH]; intros Hl; [done|].
    cbn [map]. rewrite run_subplans_all_Ok.
    - split; [done|]. cbn [snd flat_map fst].
      destruct (IH (λ o' Ho', Hl o' (list_elem_of_further _ _ _ Ho'))) as [Hok Hbodies].
      rewrite run_subplans_all_Ok in Hbodies.
      + cbn [snd] in Hbodies. rewrite (Hsub o) by (apply Hl; by left).
        cbn [snd]. change (EvExhaust (imp_T imp1) name o :: ?a ++ ?b)
          with ([EvExhaust (imp_T imp1) name o] ++ a ++ b).
        rewrite !bodies_returned_app, Hbodies. cbn.
        by rewrite decide_True.
      + apply Forall_map, Forall_forall. intros o' Ho'. cbn [fst snd].
        rewrite (Hsub o'); [done|]. apply Hl. by right.
    - apply Forall_cons. split.
      + cbn [fst snd]. rewrite (Hsub o); [done|]. apply Hl. by left.
      + apply Forall_map, Forall_forall. intros o' Ho'. cbn [fst snd].
        rewrite (Hsub o'); [done|]. apply Hl. by right. }
  destruct (Hrun (filter (λ o, o ≠ first) rest)) as [Hok Hbodies].
  { intros o Ho. by apply list_elem_of_filter in Ho as [_ ?]. }
  cbv zeta in Hok, Hbodies.
  destruct (run_subplans _ _ _ _ imp1) as [[r2 imp2] tr2]. cbn [fst snd] in *.
  subst r2. split; [done|]. cbn [fst snd].
  change (EvRunStart t :: ?a ++ ?b) with ([EvRunStart t] ++ a ++ b).
  rewrite !bodies_returned_app. cbn [bodies_returned omap app].
  change (EvBodyReturned (imp_T imp1) (imp_ctx imp1) :: tr2)
    with ([EvBodyReturned (imp_T imp1) (imp_ctx imp1)] ++ tr2).
  rewrite bodies_returned_app, Hbodies. cbn. rewrite decide_True by done.
  by rewrite app_nil_r.
Qed.

Lemma single_selection_runs_all_witness :
  let imp := scopeWith (selector_any selectAll) ["TestX"] in
  bodies_returned "p" (Impl.planCtx 2 imp (imp_ctx imp) "default" selectOnce).2 =
    [(["TestX"; "default"], string_any "a");
     (["TestX"; "default"; "exhaust_p_b"], string_any "b");
     (["TestX"; "default"; "exhaust_p_c"], string_any "c")].
Proof.
  intros imp.
  refine (proj2 (single_selection_runs_all 0 imp (imp_ctx imp) "default" "p"
            ["a"; "b"; "c"] selectAll "a" ["b"; "c"] _ _ _ _));
    [reflexivity|reflexivity|reflexivity|].
  right. repeat constructor; by apply Contains_spec.
Defined.

(** ** A selector that selects one option *)

Lemma settled_Select name options imp :
  settled imp → settled (Impl.Select name options imp).1.2.
Proof.
  intros [Hone Hrec].
  destruct (Value (imp_ctx imp) (parameterCtxKey name)) as [|v|s] eqn:Hv.
  - destruct (Value (imp_ctx imp) parameterManagerCtxKey) as [|v|sel] eqn:Hs.
    + by rewrite Select_nil_selector.
    + replace (Impl.Select name options imp)
        with (@Exit string (Panic NotAParameterSelector), imp, @nil event); [done|].
      unfold Impl.Select. unfold_M. by rewrite Hv, Hs.
    + rewrite (Select_unbound _ _ _ sel) by done. cbv zeta.
      pose proof (Hone sel Hs name options) as Hlen.
      destruct (selector_Select sel name options) as [|first rest]; [done|].
      destruct (if slices_Contains options "*" then _ else _); [done|].
      destruct rest as [|second rest]; [|simpl in Hlen; lia].
      split.
      * intros sel' Hs'. apply Hone. cbn in Hs'. by rewrite decide_False in Hs'.
      * cbn. exists first. by rewrite decide_True.
  - rewrite (Select_bound _ _ _ v) by done. by destruct (_ && _).
  - by rewrite (Select_not_a_string _ _ _ s).
Qed.

Lemma quiet_exhaust_Select name options imp :
  Forall (λ e, is_exhaust e = false) (Impl.Select name options imp).2.
Proof.
  destruct (Select_cases name options imp) as [r tr _ [-> | ->]|first rest _];
    cbn [snd]; by repeat constructor.
Qed.

Section OneOption.
Variable plan : testImpl → Context → string → body → result unit * trace.
Variable run : testImpl → string → body → result unit * trace.
Hypothesis plan_one : ∀ imp ctx name fn,
  selects_at_most_one ctx → Forall (λ e, is_exhaust e = false) (plan imp ctx name fn).2.
Hypothesis run_one : ∀ imp name fn,
  selects_at_most_one (imp_ctx imp) →
  Forall (λ e, is_exhaust e = false) (run imp name fn).2.

Lemma one_call fn imp :
  settled imp →
  Forall (λ e, is_exhaust e = false) (Impl.call_open plan run fn imp).2
  ∧ settled (Impl.call_open plan run fn imp).1.2.
Proof.
  revert imp. induction fn as [|name options k IH|name k IH|name fn' _ k IH|name fn' _ k IH];
    intros imp Hset; cbn [Impl.call_open].
  - by split.
  - pose proof (settled_Select name options imp Hset) as HS.
    pose proof (quiet_exhaust_Select name options imp) as Htr.
    unfold mbind, M_bind.
    destruct (Impl.Select name options imp) as [[[v|e] imp1] tr1];
      cbn [fst snd] in *; [|by split].
    destruct (IH v imp1 HS) as [Hq Hs].
    destruct (Impl.call_open plan run (k v) imp1) as [[? ?] ?].
    split; [by apply Forall_app|done].
  - destruct (Parameter_scope name imp) as [HP Htr]. unfold mbind, M_bind.
    destruct (Impl.Parameter_ name imp) as [[[v|e] imp1] tr1];
      cbn [fst snd] in *; subst; [|by split].
    destruct (IH v.1 v.2 imp Hset) as [Hq Hs].
    by destruct (Impl.call_open plan run (k v.1 v.2) imp) as [[? ?] ?].
  - unfold mbind, M_bind. rewrite Plan_open_sub. unfold sub.
    pose proof (plan_one imp (imp_ctx imp) name fn' (proj1 Hset)) as Hp.
    destruct (plan imp (imp_ctx imp) name fn') as [[[]|e] tr1]; [|by split].
    destruct (IH imp Hset) as [Hq Hs].
    destruct (Impl.call_open plan run k imp) as [[? ?] ?].
    split; [by apply Forall_app|done].
  - unfold mbind, M_bind, sub.
    pose proof (run_one imp name fn' (proj1 Hset)) as Hp.
    destruct (run imp name fn') as [[[]|e] tr1]; [|by split].
    destruct (IH imp Hset) as [Hq Hs].
    destruct (Impl.call_open plan run k imp) as [[? ?] ?].
    split; [by apply Forall_app|done].
Qed.

Lemma one_exhaust fn imp :
  settled imp → (Impl.exhaust_open plan fn imp).2 = [].
Proof.
  intros [_ Hrec]. rewrite exhaust_open_loop.
  destruct (imp_parameterSelection imp) as [ps|]; [|done].
  destruct Hrec as (first & -> & Hv).
  by rewrite (exhaust_loop_bound _ _ _ _ first), remaining_subplans_default.
Qed.

Lemma one_planCtx_closure imp ctx fn t :
  selects_at_most_one ctx →
  Forall (λ e, is_exhaust e = false) (Impl.planCtx_closure plan run imp ctx fn t).2.
Proof.
  intros Hone.
  destruct (one_call fn (subScope_of imp ctx t)) as [Hq Hs]; [by split|].
  destruct (Impl.call_open plan run fn (subScope_of imp ctx t))
    as [[[[]|e] imp'] tr] eqn:Hcall; cbn [fst snd] in *.
  - rewrite (planCtx_closure_Ok _ _ _ _ _ _ _ _ Hcall). cbn [fst snd].
    rewrite (one_exhaust fn imp' Hs).
    apply Forall_app. split; [done|]. by repeat constructor.
  - by rewrite (planCtx_closure_Exit _ _ _ _ _ _ _ _ _ Hcall).
Qed.

Lemma one_Run_closure imp ctx fn t :
  selects_at_most_one ctx →
  Forall (λ e, is_exhaust e = false) (Impl.Run_closure plan run imp ctx fn t).2.
Proof.
  intros Hone.
  destruct (one_call fn (subScope_of imp ctx t)) as [Hq Hs]; [by split|].
  destruct (Impl.call_open plan run fn (subScope_of imp ctx t))
    as [[[[]|e] imp'] tr] eqn:Hcall; cbn [fst snd] in *.
  - rewrite (Run_closure_Ok _ _ _ _ _ _ _ _ Hcall). cbn [fst snd].
    apply Forall_app. split; [done|]. by repeat constructor.
  - by rewrite (Run_closure_Exit _ _ _ _ _ _ _ _ _ Hcall).
Qed.
End OneOption.

Lemma one_T_Run t name f :
  Forall (λ e, is_exhaust e = false) (f (t ++ [name])).2 →
  Forall (λ e, is_exhaust e = false) (T_Run t name f).2.
Proof.
  intros Htr. unfold T_Run.
  destruct (f (t ++ [name])) as [[[]|[m|m|m|]] tr]; cbn [fst snd] in *;
    repeat first [apply Forall_cons; split | apply Forall_app; split]; done.
Qed.

Lemma one_planCtx_Run fuel :
  (∀ imp ctx name fn, selects_at_most_one ctx →
     Forall (λ e, is_exhaust e = false) (Impl.planCtx fuel imp ctx name fn).2)
  ∧ (∀ imp name fn, selects_at_most_one (imp_ctx imp) →
     Forall (λ e, is_exhaust e = false) (Impl.Run fuel imp name fn).2).
Proof.
  induction fuel as [|fuel [IHplan IHrun]].
  - by split.
  - split; intros; cbn [Impl.planCtx Impl.Run]; apply one_T_Run.
    + by apply one_planCtx_closure.
    + by apply one_Run_closure.
Qed.

(** X12: under a selector that never selects more than one option, no
    plan exhausts anything, whatever the bodies select: the one option
    recorded is the default that was run. *)
Theorem one_option_never_exhausts fuel imp ctx name fn :
  selects_at_most_one ctx →
  Forall (λ e, is_exhaust e = false) (Impl.planCtx fuel imp ctx name fn).2.
Proof. apply (one_planCtx_Run fuel). Qed.

Lemma one_option_never_exhausts_witness :
  let selectFirst := {| selector_Select := λ _ options, take 1 options |} in
  let imp := scopeWith (selector_any selectFirst) ["TestX"] in
  Forall (λ e, is_exhaust e = false)
    (Impl.planCtx 4 imp (imp_ctx imp) "default" selectTwo).2.
Proof.
  intros selectFirst imp. apply (one_option_never_exhausts 4 imp (imp_ctx imp)).
  intros sel [= <-] name options. simpl. rewrite length_take. lia.
Defined.

(** ** Order in [Run] and in [Plan] *)

(** X13: the traces of [Run] and of the entry point [Plan] are in order
    as those of [planCtx] are: every sub-test starts above the open ones
    and ends as the innermost, a body returns once and in the innermost
    open sub-test, exhaustion starts a run only after that; a call that
    returns leaves the open sub-tests as it found them. *)
Theorem Run_and_Plan_ordered fuel :
  (∀ imp name fn stack,
     ∃ stack', ordered stack (Impl.Run fuel imp name fn).2 = Some stack'
               ∧ ((Impl.Run fuel imp name fn).1 = Ok tt → stack' = stack))
  ∧ (∀ t fn,
       ∃ stack', ordered [] (Plan fuel t fn).2 = Some stack'
                 ∧ ((Plan fuel t fn).1 = Ok tt → stack' = [])).
Proof.
  split.
  - intros imp name fn stack.
    destruct (proj2 (accepted_planCtx_Run fuel) imp name fn stack) as (stack' & Ho & Hs).
    exists stack'. split; [done|]. intros Hok. apply Hs. by rewrite Hok.
  - intros t fn. rewrite Plan_planCtx.
    destruct (proj1 (accepted_planCtx_Run fuel) (Plan_imp t) Plan_ctx "default" fn [])
      as (stack' & Ho & Hs).
    exists stack'. split; [done|]. intros Hok. apply Hs. by rewrite Hok.
Qed.
